(** * openindexcli: group messaging, blinded inboxes and key rotation

    A shallow embedding of the messaging core of the command line tool:
    [lib/helpers.ts] (blinded inbox ids), [lib/group.ts] (the HMAC ratchet and
    the key redistribution), [lib/local.ts] (the group store kept in
    [~/.openindex/groups.json]) and the commands [get-messages],
    [create-group], [group-send] and [leave-group] of [index.ts].

    The cryptographic primitives, the relay, the user directory, the clock,
    the entropy source and the writability of the disk are parameters of the
    model; everything the TypeScript code itself does (control flow, object
    updates, what is persisted, what is posted and in which order) is
    translated statement by statement. *)

From Stdlib Require Import ZArith NArith Ascii String List.
From Stdlib.Strings Require Import Byte.
From stdpp Require Import base option list strings gmap fin_maps.

Local Open Scope string_scope.
Local Open Scope list_scope.

(** ** JavaScript values that the code relies on *)

Module Js.

(** Truthiness of a value that is either [undefined] or a string:
    [!x] holds for [undefined] and for the empty string. *)
Definition truthy (x : option string) : bool :=
  match x with
  | Some EmptyString => false
  | Some _ => true
  | None => false
  end.

(** The value of [x] when [x] is truthy: the tests [if (!x) continue;] of the
    code let only a non-empty string through. *)
Definition nonempty (x : option string) : option string :=
  match x with
  | Some EmptyString => None
  | _ => x
  end.

(** A property key computed from a value that may be [undefined]:
    [obj[undefined]] addresses the property named ["undefined"]. *)
Definition key (x : option string) : string :=
  match x with
  | Some s => s
  | None => "undefined"
  end.

(** [String.prototype.toLowerCase], on the ASCII range. *)
Definition lower_ascii (c : ascii) : ascii :=
  let n := nat_of_ascii c in
  if (Nat.leb 65 n && Nat.leb n 90)%bool then ascii_of_nat (n + 32) else c.

Fixpoint toLowerCase (s : string) : string :=
  match s with
  | EmptyString => EmptyString
  | String c r => String (lower_ascii c) (toLowerCase r)
  end.

(** [String.prototype.split(':')]: the list of the segments between colons
    (never empty: a string without a colon is its own single segment). *)
Fixpoint split_colon (s : string) : list string :=
  match s with
  | EmptyString => [EmptyString]
  | String c r =>
      if Ascii.eqb c ":"%char then EmptyString :: split_colon r
      else match split_colon r with
           | seg :: segs => String c seg :: segs
           | [] => [String c EmptyString]
           end
  end.

(** Two strings are the same up to the case of their ASCII letters. *)
Inductive same_letter : ascii -> ascii -> Prop :=
| same_char c : same_letter c c
| upper_lower c : lower_ascii c <> c -> same_letter c (lower_ascii c)
| lower_upper c : lower_ascii c <> c -> same_letter (lower_ascii c) c.

Inductive differ_only_in_case : string -> string -> Prop :=
| doc_nil : differ_only_in_case EmptyString EmptyString
| doc_cons a b r s :
    same_letter a b -> differ_only_in_case r s ->
    differ_only_in_case (String a r) (String b s).

(** [String.prototype.toUpperCase], on the ASCII range. *)
Definition upper_ascii (c : ascii) : ascii :=
  let n := nat_of_ascii c in
  if (Nat.leb 97 n && Nat.leb n 122)%bool then ascii_of_nat (n - 32) else c.

Fixpoint toUpperCase (s : string) : string :=
  match s with
  | EmptyString => EmptyString
  | String c r => String (upper_ascii c) (toUpperCase r)
  end.

(** [s.startsWith(p)] and [s.slice(1)]. *)
Definition startsWith (p s : string) : bool := String.prefix p s.

Definition slice1 (s : string) : string :=
  match s with
  | EmptyString => EmptyString
  | String _ r => r
  end.

End Js.

(** ** Buffers and their hexadecimal form *)

Module Hex.

Definition digit (n : N) : ascii :=
  match n with
  | 0%N => "0" | 1%N => "1" | 2%N => "2" | 3%N => "3"
  | 4%N => "4" | 5%N => "5" | 6%N => "6" | 7%N => "7"
  | 8%N => "8" | 9%N => "9" | 10%N => "a" | 11%N => "b"
  | 12%N => "c" | 13%N => "d" | 14%N => "e" | _ => "f"
  end%char.

Definition value (c : ascii) : option N :=
  let n := N_of_ascii c in
  if (N.leb 48 n && N.leb n 57)%bool then Some (n - 48)%N
  else if (N.leb 97 n && N.leb n 102)%bool then Some (n - 87)%N
  else if (N.leb 65 n && N.leb n 70)%bool then Some (n - 55)%N
  else None.

(** [buf.toString('hex')]: two lower-case digits per byte. *)
Fixpoint toHex (buf : list byte) : string :=
  match buf with
  | [] => EmptyString
  | b :: r =>
      let n := Byte.to_N b in
      String (digit (n / 16)) (String (digit (n mod 16)) (toHex r))
  end.

Definition byte_of (hi lo : N) : byte :=
  match Byte.of_N (16 * hi + lo) with
  | Some b => b
  | None => x00
  end.

(** [Buffer.from(s, 'hex')]: decodes pairs of digits and stops at the first
    pair that is not hexadecimal; an odd last character is dropped. *)
Fixpoint fromHex (s : string) : list byte :=
  match s with
  | String a (String b r) =>
      match value a, value b with
      | Some hi, Some lo => byte_of hi lo :: fromHex r
      | _, _ => []
      end
  | _ => []
  end.

End Hex.


(** ** Data model *)

(** The object kept per group in [groups.json]. The file is JSON, so a
    property is either there with a value or missing; a missing property
    reads as [undefined], here [None]. *)
Record Group := mkGroup {
  g_name : option string;
  g_groupInboxId : option string;
  g_creator : option string;
  g_myChainKey : option string;
  g_mySigningKey : option string;
  g_mySigningPubKey : option string;
  g_members : option (list string);
  g_memberKeys : option (gmap string string);
  g_signingKeys : option (gmap string string);
  g_updatedAt : option Z
}.

(** The second argument of [saveGroup]: an object of which every property is
    missing ([None]), holds [undefined] ([Some None]) or holds a value. *)
Record GroupData := mkGroupData {
  d_name : option (option string);
  d_groupInboxId : option (option string);
  d_creator : option (option string);
  d_myChainKey : option (option string);
  d_mySigningKey : option (option string);
  d_mySigningPubKey : option (option string);
  d_members : option (option (list string));
  d_memberKeys : option (option (gmap string string));
  d_signingKeys : option (option (gmap string string))
}.

(** The own properties of a group object that was read from the file and
    then assigned to ([updatedAt] is left out: [saveGroup] overwrites it). *)
Definition own_prop {A} (x : option A) : option (option A) :=
  match x with
  | Some v => Some (Some v)
  | None => None
  end.

Definition asData (g : Group) : GroupData :=
  {| d_name := own_prop (g_name g);
     d_groupInboxId := own_prop (g_groupInboxId g);
     d_creator := own_prop (g_creator g);
     d_myChainKey := own_prop (g_myChainKey g);
     d_mySigningKey := own_prop (g_mySigningKey g);
     d_mySigningPubKey := own_prop (g_mySigningPubKey g);
     d_members := own_prop (g_members g);
     d_memberKeys := own_prop (g_memberKeys g);
     d_signingKeys := own_prop (g_signingKeys g) |}.

(** A record of the relay: [{ message, signature?, senderId?, id? }]. *)
Record Msg := mkMsg {
  m_message : option string;
  m_signature : option string;
  m_senderId : option string;
  m_id : option string
}.

(** The JSON object inside an envelope or a group message. The kind of the
    payload is told by its fields: [type] is missing in a text message. *)
Record Payload := mkPayload {
  p_text : option string;
  p_senderId : option string;
  p_createdAt : option Z;
  p_type : option string;
  p_groupId : option string;
  p_groupInboxId : option string;
  p_creator : option string;
  p_chainKey : option string;
  p_signingPubKey : option string
}.

(** [const { text, senderId, createdAt, ...data } = JSON.parse(...)]: the rest
    object [data] holds the properties that were not picked by name. *)
Definition rest_of (p : Payload) : Payload :=
  {| p_text := None; p_senderId := None; p_createdAt := None;
     p_type := p_type p; p_groupId := p_groupId p;
     p_groupInboxId := p_groupInboxId p; p_creator := p_creator p;
     p_chainKey := p_chainKey p; p_signingPubKey := p_signingPubKey p |}.

(** The body of a [POST .../send]. *)
Record PostReq := mkPostReq {
  r_recipientHash : option string;
  r_message : string;
  r_signature : string;
  r_senderId : option string
}.

(** [index.ts] calls [API_BASE_URL/cli/...], [lib/group.ts] calls
    [API_BASE_URL/api/...]. *)
Inductive Route := Cli | Api.

(** What a command does to the outside, in order. Progress lines printed
    with [console.log] are left out; the display of a message, the notice
    that a member left and the error lines are kept. *)
Inductive Event :=
| EvGetMessages (inboxId : string)
| EvGetUser (route : Route) (username : string)
| EvPost (route : Route) (req : PostReq)
| EvWrite (groupName : string) (entry : Group)
| EvSaveFailed (groupName : string)
| EvDelete (groupName : string)
| EvShow (id : option string) (createdAt : option Z) (senderId text : option string)
| EvLeft (senderId groupId : option string)
| EvError (message : string).

(** The primitives of [crypto], [eth-crypto], [ethers] and [JSON]. A result
    [None] stands for a thrown exception. [sign_keccak256 k m] is
    [EthCrypto.sign(k, EthCrypto.hash.keccak256(m))]; [encryptWithPublicKey]
    and [decryptWithPrivateKey] include [EthCrypto.cipher.stringify] and
    [EthCrypto.cipher.parse]; [createIdentity] is given the bytes it draws. *)
Record Primitives := mkPrimitives {
  sha256 : string -> string;
  hmac_sha256 : list byte -> string -> list byte;
  aes_256_gcm_encrypt : list byte -> list byte -> string -> string * string;
  aes_256_gcm_decrypt : list byte -> list byte -> list byte -> string -> option string;
  createIdentity : list byte -> string * string;
  publicKeyByPrivateKey : string -> option string;
  toAddress : string -> option string;
  encryptWithPublicKey : string -> string -> option string;
  decryptWithPrivateKey : string -> string -> option string;
  signMessage : string -> string -> option string;
  verifyMessage : string -> string -> option string;
  sign_keccak256 : string -> string -> option string;
  json_stringify : Payload -> string;
  json_parse : string -> option Payload
}.

(** What surrounds one run of a command: the entropy behind [randomBytes]
    and [createIdentity], the clock, whether [groups.json] can be written,
    the relay's inboxes, the user directory and whether a [POST] goes
    through. [None] stands for a request that throws. *)
Record Environment := mkEnvironment {
  entropy : nat -> byte;
  now : Z;
  disk_writable : bool;
  inbox : string -> option (list Msg);
  directory : Route -> string -> option string;
  post_ok : Route -> PostReq -> bool
}.

(** The state a command runs in: the content of [groups.json] ([None] when
    the file does not exist), the number of random bytes drawn so far and
    the events so far, oldest first. *)
Record World := mkWorld {
  disk : option (gmap string Group);
  drawn : nat;
  events : list Event
}.

(** ** Commands as state transformers with exceptions *)

Inductive Outcome (A : Type) :=
| Normal (a : A)
| Throw (message : string)
| Return.
Arguments Normal {A} a.
Arguments Throw {A} message.
Arguments Return {A}.

Definition M (A : Type) : Type := World -> Outcome A * World.

Definition ret {A} (a : A) : M A := fun w => (Normal a, w).

Definition bind {A B} (m : M A) (k : A -> M B) : M B :=
  fun w =>
    match m w with
    | (Normal a, w') => k a w'
    | (Throw e, w') => (Throw e, w')
    | (Return, w') => (Return, w')
    end.

Notation "x <- m ;; k" := (bind m (fun x => k))
  (at level 90, m at level 80, right associativity).
Notation "m ;;; k" := (bind m (fun _ => k))
  (at level 90, right associativity).

Definition throw {A} (message : string) : M A := fun w => (Throw message, w).

(** [return;] inside the action of a command. *)
Definition return_ {A} : M A := fun w => (Return, w).

(** [try { m } catch { h }]: only a thrown exception reaches the handler. *)
Definition try_catch {A} (m : M A) (h : string -> M A) : M A :=
  fun w =>
    match m w with
    | (Throw e, w') => h e w'
    | r => r
    end.

Definition orThrow {A} (x : option A) (message : string) : M A :=
  match x with
  | Some a => ret a
  | None => throw message
  end.

Definition add_events (w : World) (evs : list Event) : World :=
  {| disk := disk w; drawn := drawn w; events := events w ++ evs |}.

Definition emit (e : Event) : M unit :=
  fun w => (Normal tt, add_events w [e]).

(** [for (const x of l) body]; [continue] is a body that ends early. *)
Fixpoint for_of {A} (l : list A) (body : A -> M unit) : M unit :=
  match l with
  | [] => ret tt
  | x :: r => body x ;;; for_of r body
  end.

(** The action of a command: [try { body } catch (error) { console.error }]. *)
Definition action (body : M unit) (w : World) : World :=
  snd (try_catch body (fun e => emit (EvError e)) w).


(** ** The program *)

Record Ratchet := mkRatchet {
  messageKey : list byte;
  nextChainKey : list byte
}.

Section Program.

Context (P : Primitives) (E : Environment).

(** *** lib/helpers.ts *)

Definition hashUsername (name : string) : string :=
  sha256 P (Js.toLowerCase name).

Definition hashGroupId (groupName creatorPubKey : string) : string :=
  sha256 P (Js.toLowerCase groupName ++ ":" ++ creatorPubKey)%string.

(** *** Requests, entropy *)

Definition randomBytes (n : nat) : M (list byte) :=
  fun w =>
    (Normal (map (entropy E) (seq (drawn w) n)),
     {| disk := disk w; drawn := drawn w + n; events := events w |}).

Definition fetchMessages (inboxId : string) : M (list Msg) :=
  emit (EvGetMessages inboxId) ;;;
  orThrow (inbox E inboxId) "fetch failed".

Definition fetchPublicKey (route : Route) (username : string) : M string :=
  emit (EvGetUser route username) ;;;
  orThrow (directory E route username) "fetch failed".

Definition post (route : Route) (req : PostReq) : M unit :=
  emit (EvPost route req) ;;;
  if post_ok E route req then ret tt else throw "fetch failed".

(** *** lib/local.ts *)

Definition spread_prop {A} (old : option A) (new : option (option A)) : option A :=
  match new with
  | Some v => v
  | None => old
  end.

(** [{ ...allGroups[groupName], ...groupData, updatedAt: Date.now() }] as
    [JSON.stringify] writes it: a property holding [undefined] is dropped. *)
Definition spread (old : option Group) (groupData : GroupData) : Group :=
  {| g_name := spread_prop (old ≫= g_name) (d_name groupData);
     g_groupInboxId := spread_prop (old ≫= g_groupInboxId) (d_groupInboxId groupData);
     g_creator := spread_prop (old ≫= g_creator) (d_creator groupData);
     g_myChainKey := spread_prop (old ≫= g_myChainKey) (d_myChainKey groupData);
     g_mySigningKey := spread_prop (old ≫= g_mySigningKey) (d_mySigningKey groupData);
     g_mySigningPubKey := spread_prop (old ≫= g_mySigningPubKey) (d_mySigningPubKey groupData);
     g_members := spread_prop (old ≫= g_members) (d_members groupData);
     g_memberKeys := spread_prop (old ≫= g_memberKeys) (d_memberKeys groupData);
     g_signingKeys := spread_prop (old ≫= g_signingKeys) (d_signingKeys groupData);
     g_updatedAt := Some (now E) |}.

(** The whole body is in [try { ... } catch { console.error; return false }]:
    a failed write leaves the file as it was and is told by the result only. *)
Definition saveGroup (groupName : string) (groupData : GroupData) : M bool :=
  fun w =>
    if disk_writable E then
      let allGroups := default ∅ (disk w) in
      let entry := spread (allGroups !! groupName) groupData in
      (Normal true,
       {| disk := Some (<[groupName := entry]> allGroups);
          drawn := drawn w;
          events := events w ++ [EvWrite groupName entry] |})
    else
      (Normal false,
       {| disk := disk w; drawn := drawn w;
          events := events w ++ [EvSaveFailed groupName] |}).

(** [allGroups[groupName] || null]; no file, no group. *)
Definition loadGroup (groupName : string) : M (option Group) :=
  fun w => (Normal (disk w ≫= (fun allGroups => allGroups !! groupName)), w).

Definition deleteGroup (groupName : string) : M unit :=
  fun w =>
    match disk w with
    | None => (Throw "ENOENT: no such file or directory", w)
    | Some allGroups =>
        if disk_writable E then
          (Normal tt,
           {| disk := Some (delete groupName allGroups);
              drawn := drawn w;
              events := events w ++ [EvDelete groupName] |})
        else (Throw "EACCES: permission denied", w)
    end.

(** *** lib/group.ts *)

Definition nextKey (currentChainKey : list byte) : Ratchet :=
  {| messageKey := hmac_sha256 P currentChainKey "msg_key";
     nextChainKey := hmac_sha256 P currentChainKey "next_chain" |}.

Definition rotationNotice (groupId : option string) (group : Group) : Payload :=
  {| p_text := None; p_senderId := None; p_createdAt := None;
     p_type := Some "GROUP_KEY_UPDATE";
     p_groupId := groupId;
     p_groupInboxId := None; p_creator := None;
     p_chainKey := g_myChainKey group;
     p_signingPubKey := g_mySigningPubKey group |}.

Definition redistributeTo (privateKey : string) (groupId : option string)
    (group : option Group) (member : string) : M unit :=
  match group with
  | None => throw "Cannot read properties of null (reading 'creator')"
  | Some group =>
      if bool_decide (Some member = g_creator group) then ret tt
      else
        publicKey <- fetchPublicKey Api member ;;
        encrypted <- orThrow
          (encryptWithPublicKey P publicKey (json_stringify P (rotationNotice groupId group)))
          "encryptWithPublicKey failed" ;;
        signature <- orThrow (signMessage P privateKey encrypted) "signMessage failed" ;;
        post Api {| r_recipientHash := Some (hashUsername member);
                    r_message := encrypted;
                    r_signature := signature;
                    r_senderId := None |}
  end.

Definition redistributeKeys (privateKey : string) (groupId : option string)
    (members : option (list string)) : M unit :=
  group <- loadGroup (Js.key groupId) ;;
  match members with
  | None => throw "members is not iterable"
  | Some members => for_of members (redistributeTo privateKey groupId group)
  end.

(** *** index.ts: get-messages *)

(** The body of the [try] of the group branch. *)
Definition openGroupMessage (group : Group) (msg : Msg) (message : string) : M unit :=
  let parts := Js.split_colon message in
  match Js.nonempty (parts !! 0%nat), Js.nonempty (parts !! 1%nat),
        Js.nonempty (parts !! 2%nat) with
  | Some ivHex, Some authTagHex, Some ciphertext =>
      let senderKey := g_memberKeys group ≫= (fun keys => keys !! Js.key (m_senderId msg)) in
      match Js.nonempty senderKey with
      | None => ret tt
      | Some senderKey =>
          let chainKeyBuf := Hex.fromHex senderKey in
          let messageKey := messageKey (nextKey chainKeyBuf) in
          decrypted <- orThrow
            (aes_256_gcm_decrypt P messageKey (Hex.fromHex ivHex) (Hex.fromHex authTagHex) ciphertext)
            "Unsupported state or unable to authenticate data" ;;
          parsed <- orThrow (json_parse P decrypted) "Unexpected token in JSON" ;;
          emit (EvShow (m_id msg) (p_createdAt parsed) (p_senderId parsed) (p_text parsed))
      end
  | _, _, _ => ret tt
  end.

Definition groupBranch (group : Group) (msg : Msg) (message : string) : M unit :=
  try_catch (openGroupMessage group msg message) (fun _ => ret tt).

Definition computed (k v : option string) : gmap string string :=
  match v with
  | Some s => {[ Js.key k := s ]}
  | None => ∅
  end.

Definition groupSetup (data : Payload) : M unit :=
  saveGroup (Js.key (p_groupId data))
    {| d_name := Some (p_groupId data);
       d_groupInboxId := Some (p_groupInboxId data);
       d_creator := Some (p_creator data);
       d_myChainKey := None; d_mySigningKey := None; d_mySigningPubKey := None;
       d_members := None;
       d_memberKeys := Some (Some (computed (p_creator data) (p_chainKey data)));
       d_signingKeys := Some (Some (computed (p_creator data) (p_signingPubKey data))) |} ;;;
  ret tt.

(** [group.members.filter((m) => m !== data.senderId)] *)
Definition withoutMember (who : option string) (members : list string) : list string :=
  filter (fun m => Some m ≠ who) members.

(** The [GROUP_LEAVE] branch; [data] is the rest object of the payload. *)
Definition groupLeave (key : string) (data : Payload) : M unit :=
  emit (EvLeft (p_senderId data) (p_groupId data)) ;;;
  group <- loadGroup (Js.key (p_groupId data)) ;;
  match group with
  | None => return_
  | Some group =>
      let members := withoutMember (p_senderId data) <$> g_members group in
      memberKeys <- orThrow (g_memberKeys group) "Cannot convert undefined or null to object" ;;
      signingKeys <- orThrow (g_signingKeys group) "Cannot convert undefined or null to object" ;;
      bytes <- randomBytes 32 ;;
      let newChainKey := Hex.toHex bytes in
      let group :=
        {| g_name := g_name group;
           g_groupInboxId := g_groupInboxId group;
           g_creator := g_creator group;
           g_myChainKey := Some newChainKey;
           g_mySigningKey := g_mySigningKey group;
           g_mySigningPubKey := g_mySigningPubKey group;
           g_members := members;
           g_memberKeys := Some (delete (Js.key (p_senderId data)) memberKeys);
           g_signingKeys := Some (delete (Js.key (p_senderId data)) signingKeys);
           g_updatedAt := g_updatedAt group |} in
      saveGroup (Js.key (p_groupId data)) (asData group) ;;;
      redistributeKeys key (p_groupId data) (g_members group)
  end.

(** The rest of the loop body for a record of a personal inbox. *)
Definition directBranch (key : string) (msg : Msg) (message : string) : M unit :=
  decryptedJson <- orThrow (decryptWithPrivateKey P key message) "decryptWithPrivateKey failed" ;;
  parsed <- orThrow (json_parse P decryptedJson) "Unexpected token in JSON" ;;
  let text := p_text parsed in
  let senderId := p_senderId parsed in
  let createdAt := p_createdAt parsed in
  let data := rest_of parsed in
  match Js.nonempty (m_signature msg) with
  | None => ret tt
  | Some signature =>
      recoveredAddress <- orThrow (verifyMessage P message signature) "invalid signature" ;;
      match Js.nonempty senderId with
      | None =>
          if bool_decide (p_type data = Some "GROUP_SETUP") then groupSetup data
          else ret tt
      | Some senderId =>
          sPubKey <- fetchPublicKey Cli senderId ;;
          expectedAddress <- orThrow (toAddress P sPubKey) "toAddress failed" ;;
          if bool_decide (Js.toLowerCase recoveredAddress = Js.toLowerCase expectedAddress) then
            if Js.truthy (p_type data) then ret tt
            else emit (EvShow (m_id msg) createdAt (Some senderId) text)
          else if bool_decide (p_type data = Some "GROUP_LEAVE") then groupLeave key data
          else ret tt
      end
  end.

Definition processMessage (key : string) (group : option Group) (msg : Msg) : M unit :=
  match Js.nonempty (m_message msg) with
  | None => ret tt
  | Some message =>
      match group with
      | Some group => groupBranch group msg message
      | None => directBranch key msg message
      end
  end.

Definition getMessagesBody (name key : string) : M unit :=
  (if bool_decide (key = "") then throw "Private key is required" else ret tt) ;;;
  group <- loadGroup name ;;
  let inboxId :=
    match group with
    | Some group => Js.key (g_groupInboxId group)
    | None => hashUsername name
    end in
  messages <- fetchMessages inboxId ;;
  for_of messages (processMessage key group).

Definition getMessages (name key : string) : World -> World :=
  action (getMessagesBody name key).

(** *** index.ts: create-group *)

Definition setupInfo (groupName groupInboxId : string) (members : list string)
    (myChainKey signingPubKey : string) : Payload :=
  {| p_text := None; p_senderId := None; p_createdAt := None;
     p_type := Some "GROUP_SETUP";
     p_groupId := Some groupName;
     p_groupInboxId := Some groupInboxId;
     p_creator := head members;
     p_chainKey := Some myChainKey;
     p_signingPubKey := Some signingPubKey |}.

Definition distributeTo (key : string) (info : Payload) (member : string) : M unit :=
  recipientPubKey <- fetchPublicKey Cli member ;;
  encrypted <- orThrow (encryptWithPublicKey P recipientPubKey (json_stringify P info))
    "encryptWithPublicKey failed" ;;
  signature <- orThrow (signMessage P key encrypted) "signMessage failed" ;;
  post Cli {| r_recipientHash := Some (hashUsername member);
              r_message := encrypted;
              r_signature := signature;
              r_senderId := None |}.

Definition createGroupBody (groupName : string) (members : list string) (key : string) : M unit :=
  chainBytes <- randomBytes 32 ;;
  let myChainKey := Hex.toHex chainBytes in
  identityBytes <- randomBytes 32 ;;
  let mySigningKey := createIdentity P identityBytes in
  creatorPubKey <- orThrow (publicKeyByPrivateKey P key) "publicKeyByPrivateKey failed" ;;
  let groupInboxId := hashGroupId groupName creatorPubKey in
  for_of members
    (distributeTo key (setupInfo groupName groupInboxId members myChainKey (snd mySigningKey))) ;;;
  saveGroup groupName
    {| d_name := Some (Some groupName);
       d_groupInboxId := Some (Some groupInboxId);
       d_creator := Some (head members);
       d_myChainKey := Some (Some myChainKey);
       d_mySigningKey := Some (Some (fst mySigningKey));
       d_mySigningPubKey := None;
       d_members := Some (Some members);
       d_memberKeys := None;
       d_signingKeys := None |} ;;;
  ret tt.

Definition createGroup (groupName : string) (members : list string) (key : string) : World -> World :=
  action (createGroupBody groupName members key).

(** *** index.ts: group-send *)

Definition withChainKey (group : Group) (chainKey : string) : Group :=
  {| g_name := g_name group;
     g_groupInboxId := g_groupInboxId group;
     g_creator := g_creator group;
     g_myChainKey := Some chainKey;
     g_mySigningKey := g_mySigningKey group;
     g_mySigningPubKey := g_mySigningPubKey group;
     g_members := g_members group;
     g_memberKeys := g_memberKeys group;
     g_signingKeys := g_signingKeys group;
     g_updatedAt := g_updatedAt group |}.

Definition textPayload (text : string) (senderId : option string) (createdAt : Z) : Payload :=
  {| p_text := Some text; p_senderId := senderId; p_createdAt := Some createdAt;
     p_type := None; p_groupId := None; p_groupInboxId := None; p_creator := None;
     p_chainKey := None; p_signingPubKey := None |}.

Definition groupSendBody (groupName message : string) : M unit :=
  group <- loadGroup groupName ;;
  match group with
  | None => throw "Group not found locally."
  | Some group =>
      myChainKey <- orThrow (g_myChainKey group)
        "The first argument must be of type string or an instance of Buffer" ;;
      let currentChainKey := Hex.fromHex myChainKey in
      let keys := nextKey currentChainKey in
      iv <- randomBytes 16 ;;
      let payload := json_stringify P (textPayload message (g_creator group) (now E)) in
      let sealed := aes_256_gcm_encrypt P (messageKey keys) iv payload in
      let ciphertext := fst sealed in
      let authTag := snd sealed in
      let encryptedBlob := (Hex.toHex iv ++ ":" ++ authTag ++ ":" ++ ciphertext)%string in
      mySigningKey <- orThrow (g_mySigningKey group)
        "Cannot read properties of undefined (reading 'startsWith')" ;;
      signature <- orThrow (sign_keccak256 P mySigningKey encryptedBlob)
        "EthCrypto.sign failed" ;;
      let group := withChainKey group (Hex.toHex (nextChainKey keys)) in
      saveGroup groupName (asData group) ;;;
      post Cli {| r_recipientHash := g_groupInboxId group;
                  r_message := encryptedBlob;
                  r_signature := signature;
                  r_senderId := g_creator group |}
  end.

Definition groupSend (groupName message : string) : World -> World :=
  action (groupSendBody groupName message).

(** *** index.ts: leave-group *)

Definition leaveNotice (groupName : string) (group : Group) : Payload :=
  {| p_text := None; p_senderId := g_creator group; p_createdAt := None;
     p_type := Some "GROUP_LEAVE"; p_groupId := Some groupName;
     p_groupInboxId := None; p_creator := None;
     p_chainKey := None; p_signingPubKey := None |}.

Definition leaveGroupBody (groupName : string) : M unit :=
  group <- loadGroup groupName ;;
  match group with
  | None => throw "You are not in this group."
  | Some group =>
      let notice := json_stringify P (leaveNotice groupName group) in
      mySigningKey <- orThrow (g_mySigningKey group)
        "Cannot read properties of undefined (reading 'startsWith')" ;;
      signature <- orThrow (sign_keccak256 P mySigningKey notice)
        "EthCrypto.sign failed" ;;
      post Cli {| r_recipientHash := g_groupInboxId group;
                  r_message := notice;
                  r_signature := signature;
                  r_senderId := None |} ;;;
      deleteGroup groupName
  end.

Definition leaveGroup (groupName : string) : World -> World :=
  action (leaveGroupBody groupName).

End Program.

(** *** index.ts: the helpers above the commands, send-message *)

(** The reply of [GET .../cli/user/<name>] as [resolveUsernameToAddress]
    reads it: [response.ok] and the [address] of the JSON body. *)
Record UserReply := mkUserReply {
  u_ok : bool;
  u_address : option string
}.

(** The double quote character, for messages that quote a name. *)
Definition dq : string := String (ascii_of_nat 34) EmptyString.

Section Helpers.

Context (P : Primitives) (E : Environment).

(** [tokens.json] is not part of the sources at hand: the registry, from
    chain to symbol to contract address, is a parameter. [None] stands for
    the thrown error. *)
Definition resolveTokenAddress (TOKEN_REGISTRY : gmap string (gmap string string))
    (tokenInput chain : string) : option string :=
  if Js.startsWith "0x" tokenInput then Some tokenInput
  else
    let upperSymbol := Js.toUpperCase tokenInput in
    let address := TOKEN_REGISTRY !! chain ≫= (fun tokens => tokens !! upperSymbol) in
    Js.nonempty address.

Definition normalizeUsername (username : string) : string :=
  if Js.startsWith "@" username then Js.slice1 username else username.

(** [profile] is what the directory answers; [None] is a request or a body
    that throws. *)
Definition resolveUsernameToAddress (profile : string -> option UserReply)
    (recipient : string) : M string :=
  if Js.startsWith "0x" recipient then ret recipient
  else
    let username := normalizeUsername recipient in
    try_catch
      (emit (EvGetUser Cli username) ;;;
       data <- orThrow (profile username) "fetch failed" ;;
       if negb (u_ok data) then
         throw ("Username " ++ dq ++ username ++ dq
                ++ " not found. Register first with: register " ++ username
                ++ " -k YOUR_KEY")%string
       else
         match Js.nonempty (u_address data) with
         | None =>
             throw ("Username " ++ dq ++ username ++ dq
                    ++ " exists but has no address registered")%string
         | Some address => ret address
         end)
      (fun message =>
         throw ("Failed to resolve username " ++ dq ++ username ++ dq ++ ": "
                ++ message)%string).

Definition sendMessageBody (senderUsername toUsername message key : string) : M unit :=
  recipientPubKey <- fetchPublicKey E Cli toUsername ;;
  let innerPayload :=
    json_stringify P (textPayload message (Some senderUsername) (now E)) in
  encryptedString <- orThrow (encryptWithPublicKey P recipientPubKey innerPayload)
    "encryptWithPublicKey failed" ;;
  signature <- orThrow (signMessage P key encryptedString) "signMessage failed" ;;
  let blindedRecipient := hashUsername P toUsername in
  post E Cli {| r_recipientHash := Some blindedRecipient;
                r_message := encryptedString;
                r_signature := signature;
                r_senderId := None |}.

Definition sendMessage (senderUsername toUsername message key : string) : World -> World :=
  action (sendMessageBody senderUsername toUsername message key).

End Helpers.


(** ** Observing a run *)

(** The group that [groups.json] holds under a name. *)
Definition entry (w : World) (groupName : string) : option Group :=
  disk w ≫= (fun allGroups => allGroups !! groupName).

(** The events of a run that started in [before] and ended in [after]. *)
Definition since (before after : World) : list Event :=
  drop (length (events before)) (events after).

(** No file, no entropy drawn, no history. *)
Definition blank : World := {| disk := None; drawn := 0; events := [] |}.

(** The events and the outcome of a computation that starts from [blank]. *)
Definition alone {A} (m : M A) : list Event := events (snd (m blank)).

Definition succeeds {A} (m : M A) : Prop := exists a, fst (m blank) = Normal a.

Definition throws {A} (m : M A) (e : string) : Prop := fst (m blank) = Throw e.

(** A computation that neither reads nor changes the file or the entropy:
    in any world it ends the way it ends from [blank] and adds the events it
    adds from [blank]. *)
Definition oblivious {A} (m : M A) : Prop :=
  forall w, m w = (fst (m blank), add_events w (alone m)).

(** The entry that [group-send] hands to [saveGroup] and that ends up in the
    file when the write succeeds. *)
Definition afterSend (P : Primitives) (E : Environment) (group : Group)
    (myChainKey : string) : Group :=
  {| g_name := g_name group;
     g_groupInboxId := g_groupInboxId group;
     g_creator := g_creator group;
     g_myChainKey := Some (Hex.toHex (nextChainKey (nextKey P (Hex.fromHex myChainKey))));
     g_mySigningKey := g_mySigningKey group;
     g_mySigningPubKey := g_mySigningPubKey group;
     g_members := g_members group;
     g_memberKeys := g_memberKeys group;
     g_signingKeys := g_signingKeys group;
     g_updatedAt := Some (now E) |}.

(** The world in which the request of [group-send] is posted: [saveGroup]
    has been called, and has written the advanced chain key if it could. *)
Definition saved (P : Primitives) (E : Environment) (groupName : string) (group : Group)
    (myChainKey : string) (w : World) : World :=
  if disk_writable E then
    {| disk := Some (<[groupName := afterSend P E group myChainKey]> (default ∅ (disk w)));
       drawn := drawn w + 16;
       events := events w ++ [EvWrite groupName (afterSend P E group myChainKey)] |}
  else
    {| disk := disk w; drawn := drawn w + 16;
       events := events w ++ [EvSaveFailed groupName] |}.

(** The triplet [iv:authTag:ciphertext] that [group-send] builds. *)
Definition sendBlob (P : Primitives) (E : Environment) (group : Group)
    (myChainKey message : string) (iv : list byte) : string :=
  let sealed :=
    aes_256_gcm_encrypt P (messageKey (nextKey P (Hex.fromHex myChainKey))) iv
      (json_stringify P (textPayload message (g_creator group) (now E))) in
  (Hex.toHex iv ++ ":" ++ snd sealed ++ ":" ++ fst sealed)%string.

(** The record that [group-send] posts. *)
Definition sendRequest (group : Group) (blob signature : string) : PostReq :=
  {| r_recipientHash := g_groupInboxId group;
     r_message := blob;
     r_signature := signature;
     r_senderId := g_creator group |}.

(** What [create-group] draws in world [w]: the chain key and the identity
    of the group, and the setup payload built from them. *)
Definition createChainKey (E : Environment) (w : World) : string :=
  Hex.toHex (map (entropy E) (seq (drawn w) 32)).

Definition createSigningKey (P : Primitives) (E : Environment) (w : World) : string * string :=
  createIdentity P (map (entropy E) (seq (drawn w + 32) 32)).

Definition createInfo (P : Primitives) (E : Environment) (groupName : string)
    (members : list string) (creatorPubKey : string) (w : World) : Payload :=
  setupInfo groupName (hashGroupId P groupName creatorPubKey) members
    (createChainKey E w) (snd (createSigningKey P E w)).

(** The entry that [create-group] writes over what the file held under the
    name of the group, if anything. *)
Definition created (E : Environment) (old : option Group) (groupName groupInboxId : string)
    (members : list string) (myChainKey mySigningKey : string) : Group :=
  {| g_name := Some groupName;
     g_groupInboxId := Some groupInboxId;
     g_creator := head members;
     g_myChainKey := Some myChainKey;
     g_mySigningKey := Some mySigningKey;
     g_mySigningPubKey := old ≫= g_mySigningPubKey;
     g_members := Some members;
     g_memberKeys := old ≫= g_memberKeys;
     g_signingKeys := old ≫= g_signingKeys;
     g_updatedAt := Some (now E) |}.

(** The entry that the [GROUP_LEAVE] branch hands to [saveGroup] and that
    ends up in the file: [who] is what the branch reads as [data.senderId],
    [bytes] the 32 bytes it draws. *)
Definition afterLeave (E : Environment) (group : Group) (who : option string)
    (bytes : list byte) (memberKeys signingKeys : gmap string string) : Group :=
  {| g_name := g_name group;
     g_groupInboxId := g_groupInboxId group;
     g_creator := g_creator group;
     g_myChainKey := Some (Hex.toHex bytes);
     g_mySigningKey := g_mySigningKey group;
     g_mySigningPubKey := g_mySigningPubKey group;
     g_members := withoutMember who <$> g_members group;
     g_memberKeys := Some (delete (Js.key who) memberKeys);
     g_signingKeys := Some (delete (Js.key who) signingKeys);
     g_updatedAt := Some (now E) |}.

(** The request that carries the key update to one member. *)
Definition keyUpdateFor (P : Primitives) (groupId : option string) (group : Group)
    (member encrypted signature : string) : PostReq :=
  {| r_recipientHash := Some (hashUsername P member);
     r_message := encrypted;
     r_signature := signature;
     r_senderId := None |}.

(** No group in the file has a [mySigningPubKey]. *)
Definition pubkey_free (w : World) : Prop :=
  forall name group, entry w name = Some group -> g_mySigningPubKey group = None.

(** A computation that keeps the file [pubkey_free] and, when it ends
    normally, ends with a value that satisfies [Q]. *)
Definition keeps {A} (m : M A) (Q : A -> Prop) : Prop :=
  forall w, pubkey_free w ->
    pubkey_free (snd (m w)) /\ forall a, fst (m w) = Normal a -> Q a.

(** The worlds that the four commands lead to from [blank], whatever the
    relay, the directory, the clock, the entropy and the disk do. *)
Inductive reachable (P : Primitives) : World -> Prop :=
| reach_blank : reachable P blank
| reach_getMessages E name key w :
    reachable P w -> reachable P (getMessages P E name key w)
| reach_createGroup E groupName members key w :
    reachable P w -> reachable P (createGroup P E groupName members key w)
| reach_groupSend E groupName message w :
    reachable P w -> reachable P (groupSend P E groupName message w)
| reach_leaveGroup E groupName w :
    reachable P w -> reachable P (leaveGroup P E groupName w).

(** A computation that only ever adds to the history. *)
Definition appends {A} (m : M A) : Prop :=
  forall w, exists evs, events (snd (m w)) = events w ++ evs.

(** What the group branch of [get-messages] prints for one record. *)
Definition groupOutput (P : Primitives) (group : Group) (msg : Msg) : list Event :=
  match Js.nonempty (m_message msg) with
  | Some message => alone (groupBranch P group msg message)
  | None => []
  end.

Definition posts (evs : list Event) : list PostReq :=
  omap (fun ev => match ev with EvPost _ r => Some r | _ => None end) evs.

Definition recipients (evs : list Event) : list (option string) :=
  r_recipientHash <$> posts evs.

Definition shown (evs : list Event) : list (option string) :=
  omap (fun ev => match ev with EvShow _ _ _ text => Some text | _ => None end) evs.

Definition errors (evs : list Event) : list string :=
  omap (fun ev => match ev with EvError message => Some message | _ => None end) evs.

Definition isWrite (ev : Event) : bool :=
  match ev with EvWrite _ _ => true | _ => false end.

Definition isPost (ev : Event) : bool :=
  match ev with EvPost _ _ => true | _ => false end.

(** Two sets of primitives that agree on what the group branch of
    [get-messages] calls. *)
Definition sameSymmetric (P1 P2 : Primitives) : Prop :=
  hmac_sha256 P1 = hmac_sha256 P2 /\
  aes_256_gcm_decrypt P1 = aes_256_gcm_decrypt P2 /\
  json_parse P1 = json_parse P2.

(** Two sets of primitives that agree on everything but the ratchet and the
    symmetric cipher. *)
Definition sameEnvelope (P1 P2 : Primitives) : Prop :=
  sha256 P1 = sha256 P2 /\
  createIdentity P1 = createIdentity P2 /\
  publicKeyByPrivateKey P1 = publicKeyByPrivateKey P2 /\
  toAddress P1 = toAddress P2 /\
  encryptWithPublicKey P1 = encryptWithPublicKey P2 /\
  decryptWithPrivateKey P1 = decryptWithPrivateKey P2 /\
  signMessage P1 = signMessage P2 /\
  verifyMessage P1 = verifyMessage P2 /\
  sign_keccak256 P1 = sign_keccak256 P2 /\
  json_stringify P1 = json_stringify P2 /\
  json_parse P1 = json_parse P2.

(** One step of the sender's chain, and a series of [group-send] runs. *)
Definition ratchet (P : Primitives) (chainKey : list byte) : list byte :=
  nextChainKey (nextKey P chainKey).

Definition sends (P : Primitives) (E : Environment) (groupName : string)
    (messages : list string) (w : World) : World :=
  fold_left (fun w message => groupSend P E groupName message w) messages w.

(** The messages that a series of sends posts when it starts from chain key
    [chainKey] with [offset] bytes of entropy drawn: each is sealed under the
    message key of the chain key of its turn. *)
Fixpoint chainBlobs (P : Primitives) (E : Environment) (group : Group)
    (chainKey : list byte) (offset : nat) (messages : list string) : list string :=
  match messages with
  | [] => []
  | message :: rest =>
      sendBlob P E group (Hex.toHex chainKey) message (map (entropy E) (seq offset 16))
        :: chainBlobs P E group (ratchet P chainKey) (offset + 16) rest
  end.


(** ** A small instance of the parameters

    Stand-ins for the primitives that can be evaluated: they keep what the
    scenarios below rely on (a digest that tells its input, a ciphertext that
    opens under the matching key only, a signature that names its signer) and
    nothing else. *)

Module Toy.

Definition bytes_of (s : string) : list byte := list_byte_of_string s.
Definition text_of (b : list byte) : string := string_of_list_byte b.

Fixpoint strip_prefix (p s : string) : option string :=
  match p, s with
  | EmptyString, _ => Some s
  | String a p', String b s' => if Ascii.eqb a b then strip_prefix p' s' else None
  | String _ _, EmptyString => None
  end.

Definition toy_sha256 (s : string) : string := ("sha256/" ++ s)%string.

(** Eight bytes: the first letter of the label, then the start of the key. *)
Definition toy_hmac (k : list byte) (m : string) : list byte :=
  bytes_of (String.substring 0 1 m) ++ take 7 k.

(** The tag is the key: decryption fails under any other key. *)
Definition toy_seal (k iv : list byte) (plaintext : string) : string * string :=
  (Hex.toHex (bytes_of plaintext), Hex.toHex k).

Definition toy_unseal (k iv tag : list byte) (ciphertext : string) : option string :=
  if bool_decide (Hex.toHex tag = Hex.toHex k) then Some (text_of (Hex.fromHex ciphertext))
  else None.

Definition toy_identity (b : list byte) : string * string :=
  (("priv/" ++ Hex.toHex b)%string, ("pub/priv/" ++ Hex.toHex b)%string).

Definition toy_public (k : string) : option string := Some ("pub/" ++ k)%string.
Definition toy_address (pub : string) : option string := Some ("addr/" ++ pub)%string.

Definition toy_encrypt (pub plaintext : string) : option string :=
  Some ("sealed/" ++ pub ++ "/" ++ plaintext)%string.

Definition toy_decrypt (k sealed : string) : option string :=
  strip_prefix ("sealed/pub/" ++ k ++ "/")%string sealed.

(** The signature names the address of the signer. *)
Definition toy_signMessage (k m : string) : option string :=
  Some ("addr/pub/" ++ k)%string.

Definition toy_verifyMessage (m signature : string) : option string :=
  Some signature.

Definition toy_sign (k m : string) : option string :=
  Some ("signed/" ++ k)%string.

Definition field (k : string) (v : option string) : string :=
  match v with
  | Some s => (k ++ "=" ++ s ++ ";")%string
  | None => EmptyString
  end.

Definition toy_number (z : Z) : string :=
  Hex.toHex [Hex.byte_of (Z.to_N z / 16) (Z.to_N z mod 16)].

Definition toy_stringify (p : Payload) : string :=
  (field "type" (p_type p) ++ field "text" (p_text p)
   ++ field "senderId" (p_senderId p)
   ++ field "createdAt" (toy_number <$> p_createdAt p)
   ++ field "groupId" (p_groupId p) ++ field "groupInboxId" (p_groupInboxId p)
   ++ field "creator" (p_creator p) ++ field "chainKey" (p_chainKey p)
   ++ field "signingPubKey" (p_signingPubKey p))%string.

(** [JSON.parse] on the documents of a scenario. *)
Definition toy_parse (known : list Payload) (s : string) : option Payload :=
  find (fun p => bool_decide (toy_stringify p = s)) known.

Definition prims (known : list Payload) : Primitives :=
  {| sha256 := toy_sha256;
     hmac_sha256 := toy_hmac;
     aes_256_gcm_encrypt := toy_seal;
     aes_256_gcm_decrypt := toy_unseal;
     createIdentity := toy_identity;
     publicKeyByPrivateKey := toy_public;
     toAddress := toy_address;
     encryptWithPublicKey := toy_encrypt;
     decryptWithPrivateKey := toy_decrypt;
     signMessage := toy_signMessage;
     verifyMessage := toy_verifyMessage;
     sign_keccak256 := toy_sign;
     json_stringify := toy_stringify;
     json_parse := toy_parse known |}.

(** Users [alice], [bob], [carol], [dave] and [mallory] are registered; the private
    key of a user is ["key/"] followed by the name. *)
Definition registered : list string := ["alice"; "bob"; "carol"; "dave"; "mallory"].

Definition toy_directory (absent : list string) (r : Route) (username : string) : option string :=
  if bool_decide (username ∈ registered) && negb (bool_decide (username ∈ absent))
  then Some ("pub/key/" ++ username)%string else None.

Definition toy_entropy (i : nat) : byte :=
  match Byte.of_N (N.of_nat i mod 256) with
  | Some b => b
  | None => x00
  end.

Definition env (salt : nat) (writable : bool) (absent : list string)
    (inboxes : string -> option (list Msg)) : Environment :=
  {| entropy := fun i => toy_entropy (salt + i);
     now := 7;
     disk_writable := writable;
     inbox := inboxes;
     directory := toy_directory absent;
     post_ok := fun _ _ => true |}.

Definition fresh : World := {| disk := None; drawn := 0; events := [] |}.

(** What the relay holds for an inbox after the given events: the records
    posted to it, oldest first. *)
Definition posted_to (inboxId : string) (evs : list Event) : list Msg :=
  omap (fun ev =>
          match ev with
          | EvPost _ r =>
              if bool_decide (r_recipientHash r = Some inboxId)
              then Some {| m_message := Some (r_message r);
                           m_signature := Some (r_signature r);
                           m_senderId := r_senderId r;
                           m_id := None |}
              else None
          | _ => None
          end) evs.

Definition relay (evs : list Event) (inboxId : string) : option (list Msg) :=
  Some (posted_to inboxId evs).

End Toy.


(** ** Scenarios

    Alice creates the group ["team"] with Bob and Carol (creator first, as the
    tool's guide asks) and sends two group messages; Bob and Alice then read
    their inboxes. The relay hands out what was posted. *)

Module Scenario.

Import Toy.

Definition chainKey0 : string := Hex.toHex (map toy_entropy (seq 0 32)).

Definition teamInbox : string := toy_sha256 "team:pub/key/alice".

Definition setup : Payload :=
  setupInfo "team" teamInbox ["alice"; "bob"; "carol"] chainKey0
    (snd (toy_identity (map toy_entropy (seq 32 32)))).

Definition hi : Payload := textPayload "hi" (Some "alice") 7.
Definition again : Payload := textPayload "again" (Some "alice") 7.
Definition hello : Payload := textPayload "hello" (Some "bob") 7.

(** The notice that Bob has left ["team"]. *)
Definition bobLeaves : Payload :=
  {| p_text := None; p_senderId := Some "bob"; p_createdAt := None;
     p_type := Some "GROUP_LEAVE"; p_groupId := Some "team";
     p_groupInboxId := None; p_creator := None;
     p_chainKey := None; p_signingPubKey := None |}.

(** The notice that Alice has left ["team"]. *)
Definition aliceLeaves : Payload :=
  {| p_text := None; p_senderId := Some "alice"; p_createdAt := None;
     p_type := Some "GROUP_LEAVE"; p_groupId := Some "team";
     p_groupInboxId := None; p_creator := None;
     p_chainKey := None; p_signingPubKey := None |}.

(** Dave makes a group of his own that is also called ["team"], with Alice
    in it. *)
Definition daveChainKey : string := Hex.toHex (map toy_entropy (seq 200 32)).

Definition daveInbox : string := toy_sha256 "team:pub/key/dave".

Definition daveSetup : Payload :=
  setupInfo "team" daveInbox ["dave"; "alice"] daveChainKey
    (snd (toy_identity (map toy_entropy (seq 232 32)))).

Definition known : list Payload :=
  [setup; hi; again; hello; bobLeaves; aliceLeaves; daveSetup].

Definition P : Primitives := prims known.

Definition offline (inboxId : string) : option (list Msg) := None.

Definition online : Environment := env 0 true [] offline.

(** An envelope sealed under the public key of [recipient] and signed with
    the private key of [signer]. *)
Definition envelopeFor (recipient : string) (payload : Payload) (signer : string) : Msg :=
  {| m_message := toy_encrypt ("pub/key/" ++ recipient) (toy_stringify payload);
     m_signature := toy_signMessage ("key/" ++ signer) EmptyString;
     m_senderId := None;
     m_id := None |}.

(** A relay that holds the given records in the personal inbox of [user]. *)
Definition inboxOf (user : string) (records : list Msg) (inboxId : string) : option (list Msg) :=
  if bool_decide (inboxId = toy_sha256 user) then Some records else None.

(** Alice: create the group, send twice, read her own setup envelope. *)
Definition alice1 : World :=
  createGroup P online "team" ["alice"; "bob"; "carol"] "key/alice" fresh.
Definition alice2 : World := groupSend P online "team" "hi" alice1.
Definition alice3 : World := groupSend P online "team" "again" alice2.
Definition alice4 : World :=
  getMessages P (env 0 true [] (relay (events alice3))) "alice" "key/alice" alice3.

(** Bob: read the setup envelope, then the group inbox. *)
Definition bob1 : World :=
  getMessages P (env 128 true [] (relay (events alice3))) "bob" "key/bob" fresh.
Definition bob2 : World :=
  getMessages P (env 128 true [] (relay (events alice3))) "team" "key/bob" bob1.

(** Bob's store, had he advanced Alice's chain key after her first message. *)
Definition chainKey1 : string :=
  Hex.toHex (nextChainKey (nextKey P (Hex.fromHex chainKey0))).

Definition advanced (g : Group) : Group :=
  {| g_name := g_name g; g_groupInboxId := g_groupInboxId g; g_creator := g_creator g;
     g_myChainKey := g_myChainKey g; g_mySigningKey := g_mySigningKey g;
     g_mySigningPubKey := g_mySigningPubKey g; g_members := g_members g;
     g_memberKeys := Some {[ "alice" := chainKey1 ]};
     g_signingKeys := g_signingKeys g; g_updatedAt := g_updatedAt g |}.

Definition bobAdvanced : World :=
  {| disk := (fun allGroups : gmap string Group => advanced <$> allGroups) <$> disk bob1;
     drawn := drawn bob1; events := events bob1 |}.
Definition bob3 : World :=
  getMessages P (env 128 true [] (relay (events alice3))) "team" "key/bob" bobAdvanced.

(** Alice reads a leave notice naming Bob that Mallory signed, and the same
    notice signed by Bob. *)
Definition aliceForged : World :=
  getMessages P (env 0 true [] (inboxOf "alice" [envelopeFor "alice" bobLeaves "mallory"]))
    "alice" "key/alice" alice4.
Definition aliceAuthentic : World :=
  getMessages P (env 0 true [] (inboxOf "alice" [envelopeFor "alice" bobLeaves "bob"]))
    "alice" "key/alice" alice4.

(** Bob reads a leave notice naming Alice that Mallory signed. *)
Definition bobForged : World :=
  getMessages P (env 128 true [] (inboxOf "bob" [envelopeFor "bob" aliceLeaves "mallory"]))
    "bob" "key/bob" bob1.

(** A record that Alice cannot open, followed by a text message from Bob. *)
Definition garbage : Msg :=
  {| m_message := Some "not an envelope"; m_signature := Some "addr/pub/key/bob";
     m_senderId := None; m_id := None |}.

Definition aliceGarbageFirst : World :=
  getMessages P (env 0 true [] (inboxOf "alice" [garbage; envelopeFor "alice" hello "bob"]))
    "alice" "key/alice" fresh.
Definition aliceHelloOnly : World :=
  getMessages P (env 0 true [] (inboxOf "alice" [envelopeFor "alice" hello "bob"]))
    "alice" "key/alice" fresh.

(** The same two records in a group inbox that Bob reads: the first cannot
    be opened, the second is Alice's first group message. *)
Definition bobGarbageFirst : World :=
  getMessages P
    (env 128 true [] (fun inboxId => (fun l => garbage :: l) <$> relay (events alice3) inboxId))
    "team" "key/bob" bob1.

(** Dave creates his ["team"]; Alice, who has created hers, reads Dave's
    setup envelope and then sends to ["team"]. *)
Definition dave1 : World :=
  createGroup P (env 200 true [] offline) "team" ["dave"; "alice"] "key/dave" fresh.
Definition aliceInvited : World :=
  getMessages P (env 0 true [] (relay (events dave1))) "alice" "key/alice" alice1.
Definition aliceSendsAsDave : World := groupSend P online "team" "hi" aliceInvited.

(** Bob sends Alice a text message; Alice reads her inbox. *)
Definition bobSends : World :=
  sendMessage P (env 128 true [] offline) "bob" "alice" "hello" "key/bob" fresh.
Definition aliceReadsBob : World :=
  getMessages P (env 0 true [] (relay (events bobSends))) "alice" "key/alice" fresh.

(** Bob, who holds ["team"] from the setup envelope only, tries to leave. *)
Definition bobLeavesTeam : World := leaveGroup P (env 128 true [] offline) "team" bob1.

(** Alice leaves the group she created. *)
Definition aliceLeavesTeam : World := leaveGroup P online "team" alice1.

(** Alice reads the notice naming Bob while [groups.json] cannot be
    written. *)
Definition aliceForgedReadOnly : World :=
  getMessages P (env 0 false [] (inboxOf "alice" [envelopeFor "alice" bobLeaves "mallory"]))
    "alice" "key/alice" alice4.

(** Alice sends while [groups.json] cannot be written. *)
Definition aliceReadOnly : World :=
  groupSend P (env 0 false [] offline) "team" "hi" alice1.

(** Alice creates the group while Carol is unknown to the directory. *)
Definition aliceWithoutCarol : World :=
  createGroup P (env 0 true ["carol"] offline) "team" ["alice"; "bob"; "carol"] "key/alice" fresh.

End Scenario.


(** * Properties *)

(** ** Strings and buffers *)

Lemma lower_ascii_idempotent (c : ascii) :
  Js.lower_ascii (Js.lower_ascii c) = Js.lower_ascii c.
Proof. destruct c as [[] [] [] [] [] [] [] []]; reflexivity. Qed.

Lemma same_letter_lower (a b : ascii) :
  Js.same_letter a b -> Js.lower_ascii a = Js.lower_ascii b.
Proof.
  intros [c | c _ | c _].
  - reflexivity.
  - symmetry. apply lower_ascii_idempotent.
  - apply lower_ascii_idempotent.
Qed.

Lemma toLowerCase_differ_only_in_case (a b : string) :
  Js.differ_only_in_case a b -> Js.toLowerCase a = Js.toLowerCase b.
Proof.
  induction 1 as [| x y r s Hxy _ IH]; simpl.
  - reflexivity.
  - rewrite (same_letter_lower _ _ Hxy), IH. reflexivity.
Qed.

Lemma toLowerCase_idempotent (s : string) :
  Js.toLowerCase (Js.toLowerCase s) = Js.toLowerCase s.
Proof.
  induction s as [| c r IH]; simpl; [reflexivity |].
  by rewrite lower_ascii_idempotent, IH.
Qed.

Lemma string_app_inj_l (p a b : string) :
  (p ++ a)%string = (p ++ b)%string -> a = b.
Proof.
  induction p as [| c p IH]; simpl; intros H; [exact H |].
  injection H as H. apply IH, H.
Qed.

Lemma toHex_length (buf : list byte) :
  String.length (Hex.toHex buf) = 2 * length buf.
Proof.
  induction buf as [| b r IH]; simpl; [reflexivity |].
  rewrite IH. lia.
Qed.

Lemma value_digit (n : N) : (n < 16)%N -> Hex.value (Hex.digit n) = Some n.
Proof.
  intros H.
  destruct n as [| p]; [reflexivity |].
  do 4 (destruct p as [p | p |]; try reflexivity; try lia).
Qed.

Lemma byte_of_to_N (b : byte) :
  Hex.byte_of (Byte.to_N b / 16) (Byte.to_N b mod 16) = b.
Proof. destruct b; reflexivity. Qed.

(** Decoding the hexadecimal form of a buffer gives the buffer back. *)
Lemma fromHex_toHex (buf : list byte) : Hex.fromHex (Hex.toHex buf) = buf.
Proof.
  induction buf as [| b r IH]; [reflexivity |].
  cbn [Hex.toHex Hex.fromHex].
  rewrite !value_digit, byte_of_to_N, IH; [reflexivity | |].
  - apply N.mod_lt. discriminate.
  - apply N.Div0.div_lt_upper_bound. pose proof (Byte.to_N_bounded b). lia.
Qed.

(** ** Blinded inbox ids *)


Lemma toy_sha256_injective (x y : string) :
  Toy.toy_sha256 x = Toy.toy_sha256 y -> x = y.
Proof. apply string_app_inj_l. Qed.


(** ** Worlds and events *)

Lemma add_events_nil (w : World) : add_events w [] = w.
Proof. destruct w. unfold add_events. simpl. by rewrite app_nil_r. Qed.

Lemma add_events_app (w : World) (a b : list Event) :
  add_events (add_events w a) b = add_events w (a ++ b).
Proof. unfold add_events. simpl. by rewrite app_assoc. Qed.

Lemma since_add_events (w : World) (evs : list Event) :
  since w (add_events w evs) = evs.
Proof. unfold since, add_events. simpl. by rewrite drop_app_length. Qed.

Lemma entry_add_events (w : World) (evs : list Event) (name : string) :
  entry (add_events w evs) name = entry w name.
Proof. reflexivity. Qed.

Lemma action_normal (body : M unit) (w w' : World) :
  body w = (Normal tt, w') -> action body w = w'.
Proof. intros H. unfold action, try_catch. by rewrite H. Qed.

Lemma action_return (body : M unit) (w w' : World) :
  body w = (Return, w') -> action body w = w'.
Proof. intros H. unfold action, try_catch. by rewrite H. Qed.

Lemma action_throw (body : M unit) (w w' : World) (e : string) :
  body w = (Throw e, w') -> action body w = add_events w' [EvError e].
Proof. intros H. unfold action, try_catch. by rewrite H. Qed.

(** ** The group branch of get-messages *)

Section GroupBranch.

Context (P : Primitives) (E : Environment).

(** A record of a group inbox is shown or skipped; either way the loop goes
    on, and neither the file nor the entropy is touched. *)
Lemma groupBranch_run (group : Group) (msg : Msg) (message : string) (w : World) :
  groupBranch P group msg message w =
    (Normal tt, add_events w (alone (groupBranch P group msg message))).
Proof.
  unfold alone, blank, groupBranch, try_catch, openGroupMessage, bind, orThrow, ret, throw, emit.
  repeat (case_match; simpl); simplify_eq/=; try by rewrite add_events_nil.
  reflexivity.
Qed.

Lemma processMessage_group (key : string) (group : Group) (msg : Msg) (w : World) :
  processMessage P E key (Some group) msg w =
    (Normal tt, add_events w (groupOutput P group msg)).
Proof.
  unfold processMessage, groupOutput.
  destruct (Js.nonempty (m_message msg)) as [message |].
  - apply groupBranch_run.
  - unfold ret. by rewrite add_events_nil.
Qed.

(** The loop over a group inbox never stops early: what it does is what
    each record does on its own, one after the other. *)
Lemma for_of_group (key : string) (group : Group) (messages : list Msg) (w : World) :
  for_of messages (processMessage P E key (Some group)) w =
    (Normal tt, add_events w (concat (map (groupOutput P group) messages))).
Proof.
  revert w. induction messages as [| msg rest IH]; intros w; simpl.
  - unfold ret. by rewrite add_events_nil.
  - unfold bind. rewrite processMessage_group, IH, add_events_app. reflexivity.
Qed.

Lemma groupOutput_shows (group : Group) (msg : Msg) (ev : Event) :
  In ev (groupOutput P group msg) ->
  exists createdAt senderId text, ev = EvShow (m_id msg) createdAt senderId text.
Proof.
  unfold groupOutput, alone, blank, groupBranch, try_catch, openGroupMessage, bind, orThrow,
    ret, throw, emit.
  repeat (case_match; simpl); simplify_eq/=; try tauto.
  intros [<- | []]. eauto.
Qed.

(** The whole command on the name of a local group. *)
Lemma getMessages_group (name key : string) (group : Group) (w : World) :
  key <> "" ->
  entry w name = Some group ->
  getMessages P E name key w =
    match inbox E (Js.key (g_groupInboxId group)) with
    | Some messages =>
        add_events w (EvGetMessages (Js.key (g_groupInboxId group))
                        :: concat (map (groupOutput P group) messages))
    | None =>
        add_events w [EvGetMessages (Js.key (g_groupInboxId group)); EvError "fetch failed"]
    end.
Proof.
  intros Hkey Hentry. unfold entry in Hentry.
  unfold getMessages, getMessagesBody.
  rewrite bool_decide_eq_false_2 by exact Hkey.
  destruct (inbox E (Js.key (g_groupInboxId group))) as [messages |] eqn:Hinbox.
  - apply action_normal.
    unfold bind at 1 2, ret at 1, loadGroup. rewrite Hentry.
    unfold bind, fetchMessages, bind, emit, orThrow. rewrite Hinbox. unfold ret at 1.
    rewrite for_of_group, add_events_app. reflexivity.
  - change (add_events w [?a; ?b]) with (add_events w ([a] ++ [b])).
    rewrite <- add_events_app. apply action_throw.
    unfold bind at 1 2, ret at 1, loadGroup. rewrite Hentry.
    unfold bind, fetchMessages, bind, emit, orThrow. rewrite Hinbox. reflexivity.
Qed.

End GroupBranch.

(** ** The history only grows *)

Create HintDb appends discriminated.

Lemma appends_ret {A} (a : A) : appends (ret a).
Proof. intros w. exists []. simpl. by rewrite app_nil_r. Qed.

Lemma appends_throw {A} (e : string) : appends (@throw A e).
Proof. intros w. exists []. simpl. by rewrite app_nil_r. Qed.

Lemma appends_return {A} : appends (@return_ A).
Proof. intros w. exists []. simpl. by rewrite app_nil_r. Qed.

Lemma appends_emit (e : Event) : appends (emit e).
Proof. intros w. by exists [e]. Qed.

Lemma appends_bind {A B} (m : M A) (k : A -> M B) :
  appends m -> (forall a, appends (k a)) -> appends (bind m k).
Proof.
  intros Hm Hk w. unfold bind.
  destruct (Hm w) as [evs Hevs].
  destruct (m w) as [[a | e |] w']; simpl in *; [| by eauto | by eauto].
  destruct (Hk a w') as [evs' Hevs'].
  exists (evs ++ evs'). by rewrite Hevs', Hevs, app_assoc.
Qed.

Lemma appends_try_catch {A} (m : M A) (h : string -> M A) :
  appends m -> (forall e, appends (h e)) -> appends (try_catch m h).
Proof.
  intros Hm Hh w. unfold try_catch.
  destruct (Hm w) as [evs Hevs].
  destruct (m w) as [[a | e |] w']; simpl in *; [by eauto | | by eauto].
  destruct (Hh e w') as [evs' Hevs'].
  exists (evs ++ evs'). by rewrite Hevs', Hevs, app_assoc.
Qed.

Lemma appends_orThrow {A} (x : option A) (e : string) : appends (orThrow x e).
Proof. destruct x; [apply appends_ret | apply appends_throw]. Qed.

Lemma appends_for_of {A} (l : list A) (body : A -> M unit) :
  (forall x, appends (body x)) -> appends (for_of l body).
Proof.
  intros Hbody. induction l as [| x r IH]; simpl.
  - apply appends_ret.
  - apply appends_bind; [apply Hbody | intros _; apply IH].
Qed.

Lemma appends_if {A} (b : bool) (m1 m2 : M A) :
  appends m1 -> appends m2 -> appends (if b then m1 else m2).
Proof. by destruct b. Qed.

#[local] Hint Resolve appends_ret appends_throw appends_return appends_emit
  appends_orThrow : appends.
#[local] Hint Extern 2 (appends (bind _ _)) =>
  apply appends_bind; [| intros ?] : appends.
#[local] Hint Extern 2 (appends (try_catch _ _)) =>
  apply appends_try_catch; [| intros ?] : appends.
#[local] Hint Extern 2 (appends (for_of _ _)) =>
  apply appends_for_of; intros ? : appends.
#[local] Hint Extern 3 (appends (if _ then _ else _)) => apply appends_if : appends.
#[local] Hint Extern 4 (appends (match ?x with _ => _ end)) => destruct x : appends.

Section Appends.

Context (P : Primitives) (E : Environment).

Lemma appends_randomBytes (n : nat) : appends (randomBytes E n).
Proof. intros w. exists []. simpl. by rewrite app_nil_r. Qed.

Lemma appends_loadGroup (name : string) : appends (loadGroup name).
Proof. intros w. exists []. simpl. by rewrite app_nil_r. Qed.

Lemma appends_saveGroup (name : string) (data : GroupData) : appends (saveGroup E name data).
Proof. intros w. unfold saveGroup. destruct (disk_writable E); simpl; eauto. Qed.

Lemma appends_deleteGroup (name : string) : appends (deleteGroup E name).
Proof.
  intros w. unfold deleteGroup.
  destruct (disk w); [destruct (disk_writable E) |]; simpl; eauto;
    exists []; by rewrite app_nil_r.
Qed.

Lemma appends_fetchMessages (inboxId : string) : appends (fetchMessages E inboxId).
Proof. unfold fetchMessages. auto with appends. Qed.

Lemma appends_fetchPublicKey (route : Route) (u : string) : appends (fetchPublicKey E route u).
Proof. unfold fetchPublicKey. auto with appends. Qed.

Lemma appends_post (route : Route) (req : PostReq) : appends (post E route req).
Proof. unfold post. auto with appends. Qed.

Hint Resolve appends_randomBytes appends_loadGroup appends_saveGroup appends_deleteGroup
  appends_fetchMessages appends_fetchPublicKey appends_post : appends.

Lemma appends_redistributeKeys (key : string) (groupId : option string)
    (members : option (list string)) :
  appends (redistributeKeys P E key groupId members).
Proof. unfold redistributeKeys, redistributeTo. auto 12 with appends. Qed.

Lemma appends_groupLeave (key : string) (data : Payload) : appends (groupLeave P E key data).
Proof.
  pose proof appends_redistributeKeys.
  unfold groupLeave. auto 12 with appends.
Qed.

Lemma appends_directBranch (key : string) (msg : Msg) (message : string) :
  appends (directBranch P E key msg message).
Proof.
  pose proof appends_groupLeave.
  unfold directBranch, groupSetup. auto 14 with appends.
Qed.

Lemma appends_processMessage (key : string) (group : option Group) (msg : Msg) :
  appends (processMessage P E key group msg).
Proof.
  pose proof appends_directBranch.
  unfold processMessage, groupBranch, openGroupMessage. auto 14 with appends.
Qed.

End Appends.

(** ** Which inbox get-messages reads, and how *)

Lemma for_of_ext {A} (l : list A) (f g : A -> M unit) (w : World) :
  (forall x w, f x w = g x w) -> for_of l f w = for_of l g w.
Proof.
  intros Hfg. revert w. induction l as [| x r IH]; intros w; simpl; [reflexivity |].
  unfold bind. rewrite Hfg. destruct (g x w) as [[[] | e |] w']; auto.
Qed.

Lemma groupOutput_sameSymmetric (P1 P2 : Primitives) (group : Group) (msg : Msg) :
  sameSymmetric P1 P2 -> groupOutput P1 group msg = groupOutput P2 group msg.
Proof.
  intros (Hhmac & Haes & Hjson).
  unfold groupOutput, alone, groupBranch, openGroupMessage, nextKey. simpl.
  by rewrite Hhmac, Haes, Hjson.
Qed.

Lemma processMessage_sameEnvelope (P1 P2 : Primitives) (E : Environment)
    (key : string) (msg : Msg) (w : World) :
  sameEnvelope P1 P2 ->
  processMessage P1 E key None msg w = processMessage P2 E key None msg w.
Proof.
  destruct P1, P2. unfold sameEnvelope. simpl.
  intros (-> & -> & -> & -> & -> & -> & -> & -> & -> & -> & ->). reflexivity.
Qed.

Section Dispatch.

Context (P : Primitives) (E : Environment).

Lemma getMessagesBody_direct (name key : string) (w : World) :
  key <> "" ->
  entry w name = None ->
  getMessagesBody P E name key w =
    (messages <- fetchMessages E (hashUsername P name) ;;
     for_of messages (processMessage P E key None)) w.
Proof.
  intros Hkey Hentry. unfold entry in Hentry. unfold getMessagesBody.
  rewrite bool_decide_eq_false_2 by exact Hkey.
  unfold bind at 1 2, ret at 1, loadGroup. by rewrite Hentry.
Qed.

Lemma getMessagesBody_group (name key : string) (group : Group) (w : World) :
  key <> "" ->
  entry w name = Some group ->
  getMessagesBody P E name key w =
    (messages <- fetchMessages E (Js.key (g_groupInboxId group)) ;;
     for_of messages (processMessage P E key (Some group))) w.
Proof.
  intros Hkey Hentry. unfold entry in Hentry. unfold getMessagesBody.
  rewrite bool_decide_eq_false_2 by exact Hkey.
  unfold bind at 1 2, ret at 1, loadGroup. by rewrite Hentry.
Qed.

(** On a personal inbox the first thing the command does is the request for
    the blinded inbox of the name. *)
Lemma getMessages_direct_first (name key : string) (w : World) :
  key <> "" ->
  entry w name = None ->
  exists rest,
    since w (getMessages P E name key w) = EvGetMessages (hashUsername P name) :: rest.
Proof.
  intros Hkey Hentry.
  unfold getMessages, action, try_catch.
  rewrite getMessagesBody_direct by assumption.
  unfold bind at 1, fetchMessages, bind at 1, emit.
  set (w1 := add_events w [EvGetMessages (hashUsername P name)]).
  assert (Hrest : forall m : M unit, appends m ->
            exists rest, events (snd (m w1)) = events w ++ EvGetMessages (hashUsername P name) :: rest).
  { intros m Hm. destruct (Hm w1) as [evs Hevs]. exists evs.
    rewrite Hevs. unfold w1, add_events. simpl. by rewrite <- app_assoc. }
  assert (Hsince : forall w', (exists rest, events w' = events w ++ EvGetMessages (hashUsername P name) :: rest) ->
            exists rest, since w w' = EvGetMessages (hashUsername P name) :: rest).
  { intros w' [rest Hw']. exists rest. unfold since. by rewrite Hw', drop_app_length. }
  apply Hsince.
  destruct (inbox E (hashUsername P name)) as [messages |]; simpl.
  - pose proof (appends_for_of messages _ (appends_processMessage P E key None)) as Hloop.
    destruct (Hrest _ Hloop) as [rest Hrest'].
    destruct (for_of messages (processMessage P E key None) w1) as [[[] | e |] w'];
      simpl in *; eauto.
    exists (rest ++ [EvError e]). by rewrite Hrest', <- app_assoc.
  - exists [EvError "fetch failed"]. simpl. by rewrite <- app_assoc.
Qed.

End Dispatch.



(** ** Records that cannot be opened *)

Section Skipping.

Context (P : Primitives) (E : Environment).

(** Reading a group inbox changes neither the file nor the entropy drawn:
    the chain key of a sender stays what it was. *)
Lemma group_inbox_leaves_store (name key : string) (group : Group) (w : World) :
  key <> "" ->
  entry w name = Some group ->
  disk (getMessages P E name key w) = disk w /\
  drawn (getMessages P E name key w) = drawn w.
Proof.
  intros Hkey Hentry. rewrite (getMessages_group P E name key group w Hkey Hentry).
  by destruct (inbox E (Js.key (g_groupInboxId group))).
Qed.

(** Every record of a group inbox is opened under the message key derived
    from the chain key that the file holds for its sender. *)
Lemma groupOutput_key (group : Group) (msg : Msg) (message ivHex authTagHex ciphertext senderKey : string) :
  Js.nonempty (m_message msg) = Some message ->
  Js.nonempty (Js.split_colon message !! 0%nat) = Some ivHex ->
  Js.nonempty (Js.split_colon message !! 1%nat) = Some authTagHex ->
  Js.nonempty (Js.split_colon message !! 2%nat) = Some ciphertext ->
  Js.nonempty (g_memberKeys group ≫= (fun keys => keys !! Js.key (m_senderId msg))) = Some senderKey ->
  groupOutput P group msg =
    match aes_256_gcm_decrypt P (messageKey (nextKey P (Hex.fromHex senderKey)))
            (Hex.fromHex ivHex) (Hex.fromHex authTagHex) ciphertext ≫= json_parse P with
    | Some parsed => [EvShow (m_id msg) (p_createdAt parsed) (p_senderId parsed) (p_text parsed)]
    | None => []
    end.
Proof.
  intros Hmsg Hiv Htag Hct Hkey.
  unfold groupOutput, alone, groupBranch, try_catch, openGroupMessage, bind, orThrow.
  rewrite Hmsg, Hiv, Htag, Hct, Hkey.
  destruct (aes_256_gcm_decrypt P _ _ _ _) as [decrypted |]; simpl; [| reflexivity].
  by destruct (json_parse P decrypted).
Qed.

Lemma directBranch_undecryptable (key : string) (msg : Msg) (message : string) (w : World) :
  decryptWithPrivateKey P key message = None ->
  directBranch P E key msg message w = (Throw "decryptWithPrivateKey failed", w).
Proof. intros H. unfold directBranch, bind, orThrow. by rewrite H. Qed.

Lemma directBranch_unparsable (key : string) (msg : Msg) (message json : string) (w : World) :
  decryptWithPrivateKey P key message = Some json ->
  json_parse P json = None ->
  directBranch P E key msg message w = (Throw "Unexpected token in JSON", w).
Proof. intros H1 H2. unfold directBranch, bind, orThrow. by rewrite H1; simpl; rewrite H2. Qed.

(** On a personal inbox a record that cannot be opened ends the loop: no
    later record is looked at. *)
Lemma personal_inbox_stops (key : string) (msg : Msg) (rest : list Msg)
    (message : string) (w : World) :
  Js.nonempty (m_message msg) = Some message ->
  decryptWithPrivateKey P key message = None ->
  for_of (msg :: rest) (processMessage P E key None) w =
    (Throw "decryptWithPrivateKey failed", w).
Proof.
  intros Hmsg Hdec. simpl. unfold bind, processMessage.
  by rewrite Hmsg, directBranch_undecryptable.
Qed.

Lemma getMessages_personal_stops (name key : string) (msg : Msg) (rest : list Msg)
    (message : string) (w : World) :
  key <> "" ->
  entry w name = None ->
  inbox E (hashUsername P name) = Some (msg :: rest) ->
  Js.nonempty (m_message msg) = Some message ->
  decryptWithPrivateKey P key message = None ->
  getMessages P E name key w =
    add_events w [EvGetMessages (hashUsername P name); EvError "decryptWithPrivateKey failed"].
Proof.
  intros Hkey Hentry Hinbox Hmsg Hdec.
  change (add_events w [?a; ?b]) with (add_events w ([a] ++ [b])).
  rewrite <- add_events_app. apply action_throw.
  rewrite getMessagesBody_direct by assumption.
  unfold bind at 1, fetchMessages, bind at 1, emit, orThrow. rewrite Hinbox. unfold ret.
  by apply (personal_inbox_stops key msg rest message).
Qed.

End Skipping.

(** C5. On a group inbox a record that cannot be opened is skipped and the
    next one is shown; on a personal inbox the same record ends the run with
    an error line and the text message behind it is never shown, although it
    is shown when it comes alone. *)
Theorem undecryptable_record_stops_personal_inbox :
  shown (since Scenario.bob1 Scenario.bobGarbageFirst) = [Some "hi"] /\
  events Scenario.aliceHelloOnly =
    [EvGetMessages "sha256/alice"; EvGetUser Cli "bob";
     EvShow None (Some 7%Z) (Some "bob") (Some "hello")] /\
  events Scenario.aliceGarbageFirst =
    [EvGetMessages "sha256/alice"; EvError "decryptWithPrivateKey failed"].
Proof. by vm_compute. Qed.

(** C3. Alice sends two group messages; the second is sealed under the
    message key of the advanced chain key. Bob's run over the group inbox
    shows the first only and leaves his file as it was: the chain key he
    holds for Alice is still the one of the setup, so the second message is
    tried under the message key that opened the first. With the advanced
    chain key in his file the second message opens. *)
Theorem receiver_keeps_the_chain_key_it_was_given :
  length (Toy.posted_to Scenario.teamInbox (events Scenario.alice3)) = 2 /\
  shown (since Scenario.bob1 Scenario.bob2) = [Some "hi"] /\
  disk Scenario.bob2 = disk Scenario.bob1 /\
  (entry Scenario.bob2 "team" ≫= g_memberKeys) ≫= (fun keys => keys !! "alice")
    = Some Scenario.chainKey0 /\
  Scenario.chainKey1 <> Scenario.chainKey0 /\
  shown (since Scenario.bobAdvanced Scenario.bob3) = [Some "again"].
Proof.
  split; [by vm_compute |].
  split; [by vm_compute |].
  split.
  { destruct (entry Scenario.bob1 "team") as [group |] eqn:Hentry; [| by vm_compute in Hentry].
    by apply (group_inbox_leaves_store Scenario.P _ "team" "key/bob" group). }
  split; [by vm_compute |].
  split; [by vm_compute |].
  by vm_compute.
Qed.

(** ** The GROUP_LEAVE branch *)

Lemma withoutMember_undefined (members : list string) :
  withoutMember None members = members.
Proof.
  unfold withoutMember. induction members as [| m r IH]; [reflexivity |].
  rewrite filter_cons_True by discriminate. by rewrite IH.
Qed.

Lemma withoutMember_removes (who : string) (members : list string) :
  ~ In who (withoutMember (Some who) members).
Proof.
  unfold withoutMember. rewrite <- list_elem_of_In, list_elem_of_filter.
  intros [Hne _]. by apply Hne.
Qed.

Lemma spread_own {A} (x : option A) : spread_prop x (own_prop x) = x.
Proof. by destruct x. Qed.

Lemma spread_own_fmap {A} (f : A -> A) (x : option A) :
  spread_prop x (own_prop (f <$> x)) = f <$> x.
Proof. by destruct x. Qed.

Section Leave.

Context (P : Primitives) (E : Environment).

(** What the envelope branch does with a record that opens, parses, carries
    a signature and names a sender that the directory knows. The notice of a
    departure is acted upon in the branch of the addresses that differ. *)
Lemma directBranch_checked (key : string) (msg : Msg) (message json : string)
    (parsed : Payload) (signature recovered senderId sPubKey expected : string) (w : World) :
  decryptWithPrivateKey P key message = Some json ->
  json_parse P json = Some parsed ->
  Js.nonempty (m_signature msg) = Some signature ->
  verifyMessage P message signature = Some recovered ->
  Js.nonempty (p_senderId parsed) = Some senderId ->
  directory E Cli senderId = Some sPubKey ->
  toAddress P sPubKey = Some expected ->
  directBranch P E key msg message w =
    let w1 := add_events w [EvGetUser Cli senderId] in
    if bool_decide (Js.toLowerCase recovered = Js.toLowerCase expected) then
      if Js.truthy (p_type parsed) then (Normal tt, w1)
      else (Normal tt,
            add_events w1 [EvShow (m_id msg) (p_createdAt parsed) (Some senderId) (p_text parsed)])
    else if bool_decide (p_type parsed = Some "GROUP_LEAVE") then
      groupLeave P E key (rest_of parsed) w1
    else (Normal tt, w1).
Proof.
  intros Hdec Hparse Hsig Hver Hsender Hdir Haddr.
  unfold directBranch, bind at 1, orThrow at 1. rewrite Hdec. unfold ret at 1.
  unfold bind at 1, orThrow at 1. rewrite Hparse. unfold ret at 1. cbv zeta.
  rewrite Hsig. unfold bind at 1, orThrow at 1. rewrite Hver. unfold ret at 1.
  rewrite Hsender.
  unfold bind at 1, fetchPublicKey, bind at 1, emit, orThrow at 1. rewrite Hdir.
  unfold ret at 1. unfold bind at 1, orThrow at 1. rewrite Haddr. unfold ret at 1.
  change (p_type (rest_of parsed)) with (p_type parsed).
  repeat case_bool_decide; try reflexivity.
  by destruct (Js.truthy (p_type parsed)).
Qed.

(** The departure of a member as the branch carries it out on a group that
    has both key tables, when the file can be written: the entry is
    rewritten, then the keys are redistributed. *)
Lemma groupLeave_run (key : string) (data : Payload) (group : Group)
    (memberKeys signingKeys : gmap string string) (w : World) :
  entry w (Js.key (p_groupId data)) = Some group ->
  g_memberKeys group = Some memberKeys ->
  g_signingKeys group = Some signingKeys ->
  disk_writable E = true ->
  let rotated :=
    afterLeave E group (p_senderId data) (map (entropy E) (seq (drawn w) 32))
      memberKeys signingKeys in
  groupLeave P E key data w =
    redistributeKeys P E key (p_groupId data) (g_members rotated)
      {| disk := Some (<[Js.key (p_groupId data) := rotated]> (default ∅ (disk w)));
         drawn := drawn w + 32;
         events := events w ++ [EvLeft (p_senderId data) (p_groupId data);
                                EvWrite (Js.key (p_groupId data)) rotated] |}.
Proof.
  intros Hentry Hmk Hsk Hdisk rotated. unfold entry in Hentry.
  assert (Hold : default ∅ (disk w) !! Js.key (p_groupId data) = Some group).
  { destruct (disk w); [exact Hentry | discriminate]. }
  unfold groupLeave, bind, emit, loadGroup, randomBytes, saveGroup.
  cbn [disk drawn events add_events].
  rewrite Hentry, Hmk, Hsk, Hdisk. cbn [orThrow ret].
  cbn [disk drawn events add_events].
  rewrite Hold. unfold spread, asData. cbn -[redistributeKeys seq].
  rewrite !spread_own, spread_own_fmap, <- app_assoc. reflexivity.
Qed.

(** The branch reads the name of the leaver from the rest object of the
    payload, which never has a [senderId]. *)
Lemma rest_has_no_sender (parsed : Payload) : p_senderId (rest_of parsed) = None.
Proof. reflexivity. Qed.

Lemma afterLeave_undefined (group : Group) (bytes : list byte)
    (memberKeys signingKeys : gmap string string) (member : string) :
  member <> "undefined" ->
  let rotated := afterLeave E group None bytes memberKeys signingKeys in
  g_members rotated = g_members group /\
  (g_memberKeys rotated ≫= (fun keys => keys !! member)) = memberKeys !! member /\
  (g_signingKeys rotated ≫= (fun keys => keys !! member)) = signingKeys !! member.
Proof.
  intros Hne. simpl. repeat split.
  - destruct (g_members group) as [members |]; simpl; [| reflexivity].
    by rewrite withoutMember_undefined.
  - by rewrite lookup_delete_ne.
  - by rewrite lookup_delete_ne.
Qed.

(** One step of the redistribution. *)
Lemma redistributeTo_self (key : string) (groupId : option string) (group : Group)
    (member : string) (w : World) :
  Some member = g_creator group ->
  redistributeTo P E key groupId (Some group) member w = (Normal tt, w).
Proof. intros H. unfold redistributeTo. by rewrite bool_decide_eq_true_2. Qed.

Lemma redistributeTo_reached (key : string) (groupId : option string) (group : Group)
    (member publicKey encrypted signature : string) (w : World) :
  Some member <> g_creator group ->
  directory E Api member = Some publicKey ->
  encryptWithPublicKey P publicKey (json_stringify P (rotationNotice groupId group))
    = Some encrypted ->
  signMessage P key encrypted = Some signature ->
  post_ok E Api (keyUpdateFor P groupId group member encrypted signature) = true ->
  redistributeTo P E key groupId (Some group) member w =
    (Normal tt,
     add_events w [EvGetUser Api member;
                   EvPost Api (keyUpdateFor P groupId group member encrypted signature)]).
Proof.
  intros Hne Hdir Henc Hsig Hpost. unfold redistributeTo.
  rewrite bool_decide_eq_false_2 by exact Hne.
  unfold bind at 1, fetchPublicKey, bind at 1, emit, orThrow at 1. rewrite Hdir. unfold ret at 1.
  unfold bind at 1, orThrow at 1. rewrite Henc. unfold ret at 1.
  unfold bind at 1, orThrow at 1. rewrite Hsig. unfold ret at 1.
  unfold post, bind, emit. fold (keyUpdateFor P groupId group member encrypted signature).
  rewrite Hpost. unfold ret. by rewrite add_events_app.
Qed.

End Leave.

(** C2. Alice holds the group ["team"]. A notice that Bob left, sealed for
    her and signed by Mallory, makes her rewrite the group entry under a new
    chain key and post key updates; the same notice signed by Bob, whose
    recovered signer is the address the directory gives for Bob, changes
    nothing and posts nothing. *)
Theorem forged_leave_notice_is_acted_upon :
  (m_signature (Scenario.envelopeFor "alice" Scenario.bobLeaves "mallory")
     ≫= fun signature => verifyMessage Scenario.P "" signature)
    = Some "addr/pub/key/mallory" /\
  (m_signature (Scenario.envelopeFor "alice" Scenario.bobLeaves "bob")
     ≫= fun signature => verifyMessage Scenario.P "" signature)
    = Some "addr/pub/key/bob" /\
  (Toy.toy_directory [] Cli "bob" ≫= toAddress Scenario.P) = Some "addr/pub/key/bob" /\
  map isWrite (since Scenario.alice4 Scenario.aliceForged)
    = [false; false; false; true; false; false; false; false] /\
  recipients (since Scenario.alice4 Scenario.aliceForged)
    = [Some "sha256/bob"; Some "sha256/carol"] /\
  (entry Scenario.alice4 "team" ≫= g_myChainKey) = Some "6e6e000102030405" /\
  (entry Scenario.aliceForged "team" ≫= g_myChainKey)
    = Some "606162636465666768696a6b6c6d6e6f707172737475767778797a7b7c7d7e7f" /\
  since Scenario.alice4 Scenario.aliceAuthentic
    = [EvGetMessages "sha256/alice"; EvGetUser Cli "bob"] /\
  disk Scenario.aliceAuthentic = disk Scenario.alice4.
Proof. repeat split; by vm_compute. Qed.

(** C1. After Alice has processed the notice that names Bob, her entry
    still lists Bob as a member; after Bob has processed a notice that names
    Alice, his entry still holds Alice's chain key and signing key. What the
    branch removes is the name it reads from the rest object, which is
    [undefined]. The chain key is replaced by 32 fresh bytes all the same. *)
Theorem leave_notice_removes_nobody :
  p_senderId Scenario.bobLeaves = Some "bob" /\
  In (EvLeft None (Some "team")) (since Scenario.alice4 Scenario.aliceForged) /\
  (entry Scenario.aliceForged "team" ≫= g_members) = Some ["alice"; "bob"; "carol"] /\
  (entry Scenario.aliceForged "team" ≫= g_myChainKey)
    = Some (Hex.toHex (map Toy.toy_entropy (seq 96 32))) /\
  p_senderId Scenario.aliceLeaves = Some "alice" /\
  In (EvLeft None (Some "team")) (since Scenario.bob1 Scenario.bobForged) /\
  ((entry Scenario.bobForged "team" ≫= g_memberKeys) ≫= fun keys => keys !! "alice")
    = Some Scenario.chainKey0 /\
  ((entry Scenario.bobForged "team" ≫= g_signingKeys) ≫= fun keys => keys !! "alice")
    = Some "pub/priv/202122232425262728292a2b2c2d2e2f303132333435363738393a3b3c3d3e3f".
Proof.
  repeat split; try by vm_compute.
  - vm_compute. tauto.
  - vm_compute. tauto.
Qed.

(** C7. The key updates that follow the notice naming Bob go to Bob and to
    Carol: the leaver is served the new chain key. The payload holds the
    group id and the new chain key; it holds no signing public key, because
    the entry has no [mySigningPubKey]. *)
Theorem key_update_reaches_the_leaver :
  (entry Scenario.aliceForged "team" ≫= g_mySigningPubKey) = None /\
  posts (since Scenario.alice4 Scenario.aliceForged) =
    [ {| r_recipientHash := Some (hashUsername Scenario.P "bob");
         r_message := "sealed/pub/key/bob/type=GROUP_KEY_UPDATE;groupId=team;chainKey=606162636465666768696a6b6c6d6e6f707172737475767778797a7b7c7d7e7f;";
         r_signature := "addr/pub/key/alice";
         r_senderId := None |};
      {| r_recipientHash := Some (hashUsername Scenario.P "carol");
         r_message := "sealed/pub/key/carol/type=GROUP_KEY_UPDATE;groupId=team;chainKey=606162636465666768696a6b6c6d6e6f707172737475767778797a7b7c7d7e7f;";
         r_signature := "addr/pub/key/alice";
         r_senderId := None |} ].
Proof. split; by vm_compute. Qed.

(** ** Computations that do not look at the file *)

Lemma oblivious_ret {A} (a : A) : oblivious (ret a).
Proof. intros w. unfold alone, ret. simpl. by rewrite add_events_nil. Qed.

Lemma oblivious_throw {A} (e : string) : oblivious (@throw A e).
Proof. intros w. unfold alone, throw. simpl. by rewrite add_events_nil. Qed.

Lemma oblivious_emit (e : Event) : oblivious (emit e).
Proof. intros w. reflexivity. Qed.

Lemma oblivious_orThrow {A} (x : option A) (e : string) : oblivious (orThrow x e).
Proof. destruct x; [apply oblivious_ret | apply oblivious_throw]. Qed.

Lemma oblivious_bind {A B} (m : M A) (k : A -> M B) :
  oblivious m -> (forall a, oblivious (k a)) -> oblivious (bind m k).
Proof.
  intros Hm Hk w. unfold alone, bind. rewrite (Hm w).
  destruct (m blank) as [[a | e |] wb] eqn:Hb; simpl fst; unfold alone; rewrite Hb;
    [| reflexivity | reflexivity].
  rewrite (Hk a), (Hk a wb). simpl. rewrite add_events_app. reflexivity.
Qed.

Lemma oblivious_if {A} (b : bool) (m1 m2 : M A) :
  oblivious m1 -> oblivious m2 -> oblivious (if b then m1 else m2).
Proof. by destruct b. Qed.

Lemma oblivious_for_of {A} (l : list A) (body : A -> M unit) :
  (forall x, oblivious (body x)) -> oblivious (for_of l body).
Proof.
  intros Hbody. induction l as [| x r IH]; simpl.
  - apply oblivious_ret.
  - apply oblivious_bind; [apply Hbody | intros _; apply IH].
Qed.

Create HintDb oblivious discriminated.
#[local] Hint Resolve oblivious_ret oblivious_throw oblivious_emit oblivious_orThrow
  : oblivious.
#[local] Hint Extern 2 (oblivious (bind _ _)) =>
  apply oblivious_bind; [| intros ?] : oblivious.
#[local] Hint Extern 3 (oblivious (if _ then _ else _)) => apply oblivious_if : oblivious.

Section Distribution.

Context (P : Primitives) (E : Environment).

Lemma oblivious_fetchPublicKey (route : Route) (u : string) :
  oblivious (fetchPublicKey E route u).
Proof. unfold fetchPublicKey. auto with oblivious. Qed.

Lemma oblivious_post (route : Route) (req : PostReq) : oblivious (post E route req).
Proof. unfold post. auto with oblivious. Qed.

Hint Resolve oblivious_fetchPublicKey oblivious_post : oblivious.

Lemma oblivious_distributeTo (key : string) (info : Payload) (member : string) :
  oblivious (distributeTo P E key info member).
Proof. unfold distributeTo. auto 10 with oblivious. Qed.

Lemma oblivious_redistributeTo (key : string) (groupId : option string)
    (group : option Group) (member : string) :
  oblivious (redistributeTo P E key groupId group member).
Proof. unfold redistributeTo. destruct group; auto 12 with oblivious. Qed.

(** A loop of oblivious steps: while the steps succeed, their events add up;
    the first step that throws ends the loop with its own events as the
    last ones. *)
Lemma for_of_all_succeed {A} (l : list A) (body : A -> M unit) (w : World) :
  (forall x, oblivious (body x)) ->
  Forall (fun x => succeeds (body x)) l ->
  for_of l body w = (Normal tt, add_events w (concat (map (fun x => alone (body x)) l))).
Proof.
  intros Hbody Hall. revert w. induction Hall as [| x r [[] Hx] _ IH]; intros w; simpl.
  - unfold ret. by rewrite add_events_nil.
  - unfold bind. rewrite (Hbody x w), Hx, IH, add_events_app. reflexivity.
Qed.

Lemma for_of_first_failure {A} (pre : list A) (x : A) (post : list A)
    (body : A -> M unit) (e : string) (w : World) :
  (forall x, oblivious (body x)) ->
  Forall (fun x => succeeds (body x)) pre ->
  throws (body x) e ->
  for_of (pre ++ x :: post) body w =
    (Throw e,
     add_events w (concat (map (fun x => alone (body x)) pre) ++ alone (body x))).
Proof.
  intros Hbody Hall Hx. revert w. induction Hall as [| y r [[] Hy] _ IH]; intros w; simpl.
  - unfold bind. rewrite (Hbody x w). unfold throws in Hx. by rewrite Hx.
  - unfold bind. rewrite (Hbody y w), Hy, IH, add_events_app, app_assoc. reflexivity.
Qed.

(** What one step of the distribution can add to the history: the lookup of
    the member and, at most, one request to the member's blinded inbox. *)
Lemma distributeTo_events (key : string) (info : Payload) (member : string) (ev : Event) :
  In ev (alone (distributeTo P E key info member)) ->
  ev = EvGetUser Cli member \/
  exists req, ev = EvPost Cli req /\ r_recipientHash req = Some (hashUsername P member).
Proof.
  unfold alone, blank, distributeTo, fetchPublicKey, post, bind, orThrow, emit, ret, throw.
  repeat (case_match; simplify_eq/=); intuition (subst; eauto).
Qed.

End Distribution.

(** ** create-group *)

Lemma entry_default (w : World) (name : string) :
  default ∅ (disk w) !! name = entry w name.
Proof. unfold entry. by destruct (disk w). Qed.

Section CreateGroup.

Context (P : Primitives) (E : Environment).

Lemma createGroupBody_loop (groupName : string) (members : list string)
    (key creatorPubKey : string) (w : World) :
  publicKeyByPrivateKey P key = Some creatorPubKey ->
  createGroupBody P E groupName members key w =
    (for_of members (distributeTo P E key (createInfo P E groupName members creatorPubKey w)) ;;;
     saveGroup E groupName
       {| d_name := Some (Some groupName);
          d_groupInboxId := Some (Some (hashGroupId P groupName creatorPubKey));
          d_creator := Some (head members);
          d_myChainKey := Some (Some (createChainKey E w));
          d_mySigningKey := Some (Some (fst (createSigningKey P E w)));
          d_mySigningPubKey := None;
          d_members := Some (Some members);
          d_memberKeys := None;
          d_signingKeys := None |} ;;;
     ret tt)
      {| disk := disk w; drawn := drawn w + 32 + 32; events := events w |}.
Proof.
  intros Hpub. unfold createGroupBody.
  unfold bind at 1, randomBytes at 1. unfold bind at 1, randomBytes at 1.
  unfold bind at 1, orThrow at 1. rewrite Hpub. unfold ret at 1. reflexivity.
Qed.

(** Every invitee is reached and the file can be written: the group is
    persisted with all the invitees as its members. *)
Lemma createGroup_succeeds (groupName : string) (members : list string)
    (key creatorPubKey : string) (w : World) :
  publicKeyByPrivateKey P key = Some creatorPubKey ->
  let info := createInfo P E groupName members creatorPubKey w in
  Forall (fun member => succeeds (distributeTo P E key info member)) members ->
  disk_writable E = true ->
  let group :=
    created E (entry w groupName) groupName (hashGroupId P groupName creatorPubKey)
      members (createChainKey E w) (fst (createSigningKey P E w)) in
  createGroup P E groupName members key w =
    {| disk := Some (<[groupName := group]> (default ∅ (disk w)));
       drawn := drawn w + 32 + 32;
       events := events w
                 ++ concat (map (fun member => alone (distributeTo P E key info member)) members)
                 ++ [EvWrite groupName group] |}.
Proof.
  intros Hpub info Hall Hdisk group. unfold createGroup. apply action_normal.
  rewrite (createGroupBody_loop _ _ _ creatorPubKey) by exact Hpub. fold info.
  unfold bind at 1.
  rewrite for_of_all_succeed by (auto using oblivious_distributeTo).
  unfold bind, saveGroup. rewrite Hdisk. cbn [disk drawn events add_events ret].
  rewrite entry_default, <- app_assoc. reflexivity.
Qed.

(** The distribution throws at one invitee: the command ends there. *)
Lemma createGroup_aborts (groupName : string) (pre : list string) (x : string)
    (post : list string) (key creatorPubKey e : string) (w : World) :
  publicKeyByPrivateKey P key = Some creatorPubKey ->
  let info := createInfo P E groupName (pre ++ x :: post) creatorPubKey w in
  Forall (fun member => succeeds (distributeTo P E key info member)) pre ->
  throws (distributeTo P E key info x) e ->
  createGroup P E groupName (pre ++ x :: post) key w =
    {| disk := disk w;
       drawn := drawn w + 32 + 32;
       events := events w
                 ++ (concat (map (fun member => alone (distributeTo P E key info member)) pre)
                     ++ alone (distributeTo P E key info x) ++ [EvError e]) |}.
Proof.
  intros Hpub info Hall Hx. unfold createGroup.
  erewrite action_throw.
  2: { rewrite (createGroupBody_loop _ _ _ creatorPubKey) by exact Hpub. fold info.
       unfold bind at 1.
       rewrite (for_of_first_failure pre x post _ e) by (auto using oblivious_distributeTo).
       reflexivity. }
  unfold add_events. cbn [disk drawn events]. by rewrite <- !app_assoc.
Qed.

End CreateGroup.




(** ** group-send *)

Section GroupSend.

Context (P : Primitives) (E : Environment).

Lemma groupSendBody_run (groupName message : string) (group : Group)
    (myChainKey mySigningKey signature : string) (w : World) :
  entry w groupName = Some group ->
  g_myChainKey group = Some myChainKey ->
  g_mySigningKey group = Some mySigningKey ->
  let blob := sendBlob P E group myChainKey message (map (entropy E) (seq (drawn w) 16)) in
  sign_keccak256 P mySigningKey blob = Some signature ->
  groupSendBody P E groupName message w =
    post E Cli (sendRequest group blob signature) (saved P E groupName group myChainKey w).
Proof.
  intros Hentry Hck Hsk blob Hsig.
  pose proof (entry_default w groupName) as Hold. rewrite Hentry in Hold.
  unfold entry in Hentry.
  unfold groupSendBody, bind at 1, loadGroup. rewrite Hentry, Hck.
  unfold bind at 1, orThrow at 1, ret at 1.
  unfold bind at 1, randomBytes. rewrite Hsk.
  unfold bind at 1, orThrow at 1, ret at 1.
  fold (sendBlob P E group myChainKey message (map (entropy E) (seq (drawn w) 16))).
  fold blob. rewrite Hsig.
  unfold bind at 1, orThrow at 1, ret at 1.
  unfold bind, saveGroup, saved. cbn [disk drawn events].
  destruct (disk_writable E); [| reflexivity].
  rewrite Hold. unfold spread, asData, withChainKey. cbn [mbind option_bind].
  cbn [g_name g_groupInboxId g_creator g_myChainKey g_mySigningKey g_mySigningPubKey
       g_members g_memberKeys g_signingKeys g_updatedAt d_name d_groupInboxId d_creator
       d_myChainKey d_mySigningKey d_mySigningPubKey d_members d_memberKeys d_signingKeys].
  rewrite !spread_own. reflexivity.
Qed.

Lemma groupSend_run (groupName message : string) (group : Group)
    (myChainKey mySigningKey signature : string) (w : World) :
  entry w groupName = Some group ->
  g_myChainKey group = Some myChainKey ->
  g_mySigningKey group = Some mySigningKey ->
  let blob := sendBlob P E group myChainKey message (map (entropy E) (seq (drawn w) 16)) in
  sign_keccak256 P mySigningKey blob = Some signature ->
  groupSend P E groupName message w =
    add_events (saved P E groupName group myChainKey w)
      (EvPost Cli (sendRequest group blob signature)
         :: if post_ok E Cli (sendRequest group blob signature) then []
            else [EvError "fetch failed"]).
Proof.
  intros Hentry Hck Hsk blob Hsig. unfold groupSend.
  destruct (post_ok E Cli (sendRequest group blob signature)) eqn:Hpost.
  - apply action_normal.
    rewrite (groupSendBody_run groupName message group myChainKey mySigningKey signature)
      by assumption.
    fold blob. unfold post, bind, emit. by rewrite Hpost.
  - change (add_events ?x [?a; ?b]) with (add_events x ([a] ++ [b])).
    rewrite <- add_events_app. apply action_throw.
    rewrite (groupSendBody_run groupName message group myChainKey mySigningKey signature)
      by assumption.
    fold blob. unfold post, bind, emit. by rewrite Hpost.
Qed.

End GroupSend.

(** C4, as the code has it. In a group send that gets as far as sealing
    and signing the message, [saveGroup] is called with the advanced chain
    key before the request is posted. When the file can be written, the
    advanced key is in the file by the time of the request. When it cannot,
    [saveGroup] reports the failure, the file keeps the old chain key, and
    the request is posted all the same. *)
Theorem group_send_saves_then_posts (P : Primitives) (E : Environment)
    (groupName message : string) (group : Group)
    (myChainKey mySigningKey signature : string) (w : World) :
  entry w groupName = Some group ->
  g_myChainKey group = Some myChainKey ->
  g_mySigningKey group = Some mySigningKey ->
  let blob := sendBlob P E group myChainKey message (map (entropy E) (seq (drawn w) 16)) in
  sign_keccak256 P mySigningKey blob = Some signature ->
  let w' := groupSend P E groupName message w in
  let request := sendRequest group blob signature in
  let report := if post_ok E Cli request then [] else [EvError "fetch failed"] in
  if disk_writable E then
    since w w' = EvWrite groupName (afterSend P E group myChainKey) :: EvPost Cli request :: report /\
    entry w' groupName = Some (afterSend P E group myChainKey) /\
    g_myChainKey (afterSend P E group myChainKey)
      = Some (Hex.toHex (nextChainKey (nextKey P (Hex.fromHex myChainKey))))
  else
    since w w' = EvSaveFailed groupName :: EvPost Cli request :: report /\
    disk w' = disk w /\
    (entry w' groupName ≫= g_myChainKey) = Some myChainKey.
Proof.
  intros Hentry Hck Hsk blob Hsig w' request report.
  pose proof (groupSend_run P E groupName message group myChainKey mySigningKey signature w
                Hentry Hck Hsk Hsig) as Hrun.
  fold blob request report w' in Hrun. cbv zeta in Hrun.
  unfold saved in Hrun. rewrite Hrun. unfold since, entry.
  destruct (disk_writable E); cbn [add_events disk events].
  - rewrite <- app_assoc, drop_app_length. repeat split.
    simpl. apply lookup_insert_eq.
  - rewrite <- app_assoc, drop_app_length. repeat split.
    unfold entry in Hentry. by rewrite Hentry.
Qed.

Lemma group_send_saves_then_posts_witness :
  map isWrite (since Scenario.alice1 Scenario.alice2) = [true; false] /\
  map isPost (since Scenario.alice1 Scenario.alice2) = [false; true] /\
  (entry Scenario.alice2 "team" ≫= g_myChainKey) = Some Scenario.chainKey1.
Proof.
  destruct (entry Scenario.alice1 "team") as [group |] eqn:Hentry;
    [| by vm_compute in Hentry].
  vm_compute in Hentry. injection Hentry as <-.
  epose proof (group_send_saves_then_posts Scenario.P Scenario.online "team" "hi" _
                 _ _ _ Scenario.alice1 ltac:(by vm_compute) eq_refl eq_refl
                 ltac:(by vm_compute)) as H.
  cbv zeta in H. change (disk_writable Scenario.online) with true in H.
  cbv iota in H. destruct H as (Hsince & Hnew & _).
  fold Scenario.alice2 in Hsince, Hnew.
  rewrite Hsince, Hnew. repeat split; by vm_compute.
Defined.

(** Alice's file cannot be written: the save fails, the file keeps the old
    chain key, and the message is posted under the message key of that old
    chain key. *)
Lemma group_send_posts_after_failed_save :
  disk_writable (Toy.env 0 false [] Scenario.offline) = false /\
  map isPost (since Scenario.alice1 Scenario.aliceReadOnly) = [false; true] /\
  since Scenario.alice1 Scenario.aliceReadOnly !! 0%nat = Some (EvSaveFailed "team") /\
  errors (since Scenario.alice1 Scenario.aliceReadOnly) = [] /\
  disk Scenario.aliceReadOnly = disk Scenario.alice1 /\
  (entry Scenario.aliceReadOnly "team" ≫= g_myChainKey) = Some Scenario.chainKey0.
Proof. repeat split; by vm_compute. Qed.

(** ** Who a group message says it is from *)

Section Sender.

Context (P : Primitives).

Lemma groupSend_posts (E : Environment) (groupName message : string) (group : Group)
    (myChainKey mySigningKey signature : string) (w : World) :
  entry w groupName = Some group ->
  g_myChainKey group = Some myChainKey ->
  g_mySigningKey group = Some mySigningKey ->
  let blob := sendBlob P E group myChainKey message (map (entropy E) (seq (drawn w) 16)) in
  sign_keccak256 P mySigningKey blob = Some signature ->
  posts (since w (groupSend P E groupName message w)) = [sendRequest group blob signature].
Proof.
  intros Hentry Hck Hsk blob Hsig.
  pose proof (group_send_saves_then_posts P E groupName message group myChainKey mySigningKey
                signature w Hentry Hck Hsk Hsig) as H.
  fold blob in H. cbv zeta in H.
  destruct (disk_writable E), (post_ok E Cli (sendRequest group blob signature));
    destruct H as (-> & _); reflexivity.
Qed.

(** A member who reads the setup envelope files the chain key of the group
    under the name that the payload gives as [creator]. *)
Lemma groupSetup_files_creator_key (E : Environment) (data : Payload)
    (groupName creator chainKey : string) (w : World) :
  p_groupId data = Some groupName ->
  p_creator data = Some creator ->
  p_chainKey data = Some chainKey ->
  disk_writable E = true ->
  ((entry (snd (groupSetup E data w)) groupName ≫= g_memberKeys)
     ≫= fun keys => keys !! creator) = Some chainKey.
Proof.
  intros Hid Hcreator Hkey Hdisk.
  unfold groupSetup, bind, saveGroup. rewrite Hdisk, Hid, Hcreator, Hkey.
  unfold entry. cbn [snd disk Js.key ret]. simpl mbind at 2.
  rewrite lookup_insert_eq. simpl. apply lookup_singleton_eq.
Qed.

End Sender.



(** ** No command stores the group's signing public key *)

Lemma keeps_ret {A} (a : A) (Q : A -> Prop) : Q a -> keeps (ret a) Q.
Proof. intros Ha w Hw. split; [exact Hw |]. simpl. by intros ? [= <-]. Qed.

Lemma keeps_throw {A} (e : string) (Q : A -> Prop) : keeps (throw e) Q.
Proof. intros w Hw. split; [exact Hw | discriminate]. Qed.

Lemma keeps_return {A} (Q : A -> Prop) : keeps return_ Q.
Proof. intros w Hw. split; [exact Hw | discriminate]. Qed.

Lemma keeps_emit (e : Event) : keeps (emit e) (fun _ => True).
Proof. intros w Hw. split; [exact Hw | done]. Qed.

Lemma keeps_orThrow {A} (x : option A) (e : string) (Q : A -> Prop) :
  (forall a, x = Some a -> Q a) -> keeps (orThrow x e) Q.
Proof. intros H. destruct x; [apply keeps_ret; auto | apply keeps_throw]. Qed.

Lemma keeps_weaken {A} (m : M A) (Q Q' : A -> Prop) :
  keeps m Q -> (forall a, Q a -> Q' a) -> keeps m Q'.
Proof. intros Hm HQ w Hw. destruct (Hm w Hw) as [H1 H2]. split; auto. Qed.

Lemma keeps_bind {A B} (m : M A) (k : A -> M B) (Q : A -> Prop) (R : B -> Prop) :
  keeps m Q -> (forall a, Q a -> keeps (k a) R) -> keeps (bind m k) R.
Proof.
  intros Hm Hk w Hw. unfold bind. destruct (Hm w Hw) as [H1 H2].
  destruct (m w) as [[a | e |] w']; simpl in *; [| by split | by split].
  apply Hk; auto.
Qed.

Lemma keeps_try_catch {A} (m : M A) (h : string -> M A) (Q : A -> Prop) :
  keeps m Q -> (forall e, keeps (h e) Q) -> keeps (try_catch m h) Q.
Proof.
  intros Hm Hh w Hw. unfold try_catch. destruct (Hm w Hw) as [H1 H2].
  destruct (m w) as [[a | e |] w']; simpl in *; [by split | | by split].
  by apply Hh.
Qed.

Lemma keeps_for_of {A} (l : list A) (body : A -> M unit) :
  (forall x, keeps (body x) (fun _ => True)) -> keeps (for_of l body) (fun _ => True).
Proof.
  intros Hbody. induction l as [| x r IH]; simpl.
  - by apply keeps_ret.
  - eapply keeps_bind; [apply Hbody | intros _ _; apply IH].
Qed.

Lemma keeps_action (body : M unit) (w : World) :
  keeps body (fun _ => True) -> pubkey_free w -> pubkey_free (action body w).
Proof.
  intros Hbody Hw. unfold action.
  apply (keeps_try_catch body (fun e => emit (EvError e)) (fun _ => True));
    [exact Hbody | intros e; apply keeps_emit | exact Hw].
Qed.

Section PubKey.

Context (P : Primitives) (E : Environment).

Lemma keeps_randomBytes (n : nat) : keeps (randomBytes E n) (fun _ => True).
Proof. intros w Hw. split; [exact Hw | done]. Qed.

Lemma keeps_loadGroup (name : string) :
  keeps (loadGroup name)
    (fun group => forall g, group = Some g -> g_mySigningPubKey g = None).
Proof.
  intros w Hw. split; [exact Hw |]. simpl. intros a [= <-] g Hg. by apply (Hw name).
Qed.

(** [saveGroup] keeps the file free of the key as long as it is not handed
    one. *)
Lemma keeps_saveGroup (name : string) (data : GroupData) :
  d_mySigningPubKey data = None \/ d_mySigningPubKey data = Some None ->
  keeps (saveGroup E name data) (fun _ => True).
Proof.
  intros Hdata w Hw. split; [| done].
  unfold saveGroup. destruct (disk_writable E); [| exact Hw].
  intros name' group. unfold entry. cbn [snd disk]. simpl.
  destruct (decide (name = name')) as [<- | Hne].
  - rewrite lookup_insert_eq. intros [= <-]. cbn [spread g_mySigningPubKey].
    destruct Hdata as [-> | ->]; [| reflexivity]. simpl.
    rewrite entry_default.
    destruct (entry w name) as [old |] eqn:Hold; [| reflexivity]. by apply (Hw name).
  - rewrite lookup_insert_ne by exact Hne. rewrite entry_default. apply Hw.
Qed.

Lemma keeps_deleteGroup (name : string) : keeps (deleteGroup E name) (fun _ => True).
Proof.
  intros w Hw. split; [| done]. unfold deleteGroup.
  destruct (disk w) as [allGroups |] eqn:Hdisk; [| exact Hw].
  destruct (disk_writable E); [| exact Hw].
  intros name' group. unfold entry. cbn [snd disk]. simpl.
  destruct (decide (name = name')) as [<- | Hne].
  - by rewrite lookup_delete_eq.
  - rewrite lookup_delete_ne by exact Hne. intros H. apply (Hw name').
    unfold entry. by rewrite Hdisk.
Qed.

Lemma keeps_fetchMessages (inboxId : string) : keeps (fetchMessages E inboxId) (fun _ => True).
Proof.
  unfold fetchMessages. eapply keeps_bind; [apply keeps_emit |].
  intros _ _. by apply keeps_orThrow.
Qed.

Lemma keeps_fetchPublicKey (route : Route) (u : string) :
  keeps (fetchPublicKey E route u) (fun _ => True).
Proof.
  unfold fetchPublicKey. eapply keeps_bind; [apply keeps_emit |].
  intros _ _. by apply keeps_orThrow.
Qed.

Lemma keeps_post (route : Route) (req : PostReq) : keeps (post E route req) (fun _ => True).
Proof.
  unfold post. eapply keeps_bind; [apply keeps_emit |].
  intros _ _. destruct (post_ok E route req); [by apply keeps_ret | apply keeps_throw].
Qed.

Lemma keeps_redistributeTo (key : string) (groupId : option string)
    (group : option Group) (member : string) :
  keeps (redistributeTo P E key groupId group member) (fun _ => True).
Proof.
  unfold redistributeTo. destruct group as [group |]; [| apply keeps_throw].
  case_bool_decide; [by apply keeps_ret |].
  eapply keeps_bind; [apply keeps_fetchPublicKey | intros publicKey _].
  eapply keeps_bind; [by apply (keeps_orThrow _ _ (fun _ => True)) | intros encrypted _].
  eapply keeps_bind; [by apply (keeps_orThrow _ _ (fun _ => True)) | intros signature _].
  apply keeps_post.
Qed.

Lemma keeps_redistributeKeys (key : string) (groupId : option string)
    (members : option (list string)) :
  keeps (redistributeKeys P E key groupId members) (fun _ => True).
Proof.
  unfold redistributeKeys. eapply keeps_bind; [apply keeps_loadGroup | intros group _].
  destruct members; [| apply keeps_throw].
  apply keeps_for_of. intros member. apply keeps_redistributeTo.
Qed.

Lemma keeps_groupLeave (key : string) (data : Payload) :
  keeps (groupLeave P E key data) (fun _ => True).
Proof.
  unfold groupLeave. eapply keeps_bind; [apply keeps_emit | intros _ _].
  eapply keeps_bind; [apply keeps_loadGroup | intros [group |] Hgroup]; [| apply keeps_return].
  eapply keeps_bind; [by apply (keeps_orThrow _ _ (fun _ => True)) | intros memberKeys _].
  eapply keeps_bind; [by apply (keeps_orThrow _ _ (fun _ => True)) | intros signingKeys _].
  eapply keeps_bind; [apply keeps_randomBytes | intros bytes _].
  eapply keeps_bind; [| intros _ _; apply keeps_redistributeKeys].
  apply keeps_saveGroup. left. cbn. by rewrite (Hgroup group eq_refl).
Qed.

Lemma keeps_groupSetup (data : Payload) : keeps (groupSetup E data) (fun _ => True).
Proof.
  unfold groupSetup. eapply keeps_bind; [| intros _ _; by apply keeps_ret].
  apply keeps_saveGroup. by left.
Qed.

Lemma keeps_directBranch (key : string) (msg : Msg) (message : string) :
  keeps (directBranch P E key msg message) (fun _ => True).
Proof.
  unfold directBranch.
  eapply keeps_bind; [by apply (keeps_orThrow _ _ (fun _ => True)) | intros json _].
  eapply keeps_bind; [by apply (keeps_orThrow _ _ (fun _ => True)) | intros parsed _].
  cbv zeta. destruct (Js.nonempty (m_signature msg)) as [signature |]; [| by apply keeps_ret].
  eapply keeps_bind; [by apply (keeps_orThrow _ _ (fun _ => True)) | intros recovered _].
  destruct (Js.nonempty (p_senderId parsed)) as [senderId |].
  - eapply keeps_bind; [apply keeps_fetchPublicKey | intros sPubKey _].
    eapply keeps_bind; [by apply (keeps_orThrow _ _ (fun _ => True)) | intros expected _].
    case_bool_decide.
    + destruct (Js.truthy _); [by apply keeps_ret | apply keeps_emit].
    + case_bool_decide; [apply keeps_groupLeave | by apply keeps_ret].
  - case_bool_decide; [apply keeps_groupSetup | by apply keeps_ret].
Qed.

Lemma keeps_processMessage (key : string) (group : option Group) (msg : Msg) :
  keeps (processMessage P E key group msg) (fun _ => True).
Proof.
  unfold processMessage.
  destruct (Js.nonempty (m_message msg)) as [message |]; [| by apply keeps_ret].
  destruct group as [group |]; [| apply keeps_directBranch].
  intros w Hw. rewrite groupBranch_run. by split.
Qed.

Lemma pubkey_free_getMessages (name key : string) (w : World) :
  pubkey_free w -> pubkey_free (getMessages P E name key w).
Proof.
  apply keeps_action. unfold getMessagesBody.
  eapply keeps_bind.
  { case_bool_decide; [apply keeps_throw | by apply (keeps_ret _ (fun _ => True))]. }
  intros _ _. eapply keeps_bind; [apply keeps_loadGroup | intros group _].
  eapply keeps_bind; [apply keeps_fetchMessages | intros messages _].
  apply keeps_for_of. intros msg. apply keeps_processMessage.
Qed.

Lemma pubkey_free_createGroup (groupName : string) (members : list string) (key : string)
    (w : World) :
  pubkey_free w -> pubkey_free (createGroup P E groupName members key w).
Proof.
  apply keeps_action. unfold createGroupBody.
  eapply keeps_bind; [apply keeps_randomBytes | intros chainBytes _].
  eapply keeps_bind; [apply keeps_randomBytes | intros identityBytes _].
  eapply keeps_bind; [by apply (keeps_orThrow _ _ (fun _ => True)) | intros creatorPubKey _].
  eapply keeps_bind.
  { apply keeps_for_of. intros member. unfold distributeTo.
    eapply keeps_bind; [apply keeps_fetchPublicKey | intros publicKey _].
    eapply keeps_bind; [by apply (keeps_orThrow _ _ (fun _ => True)) | intros encrypted _].
    eapply keeps_bind; [by apply (keeps_orThrow _ _ (fun _ => True)) | intros signature _].
    apply keeps_post. }
  intros _ _. eapply keeps_bind; [| intros _ _; by apply keeps_ret].
  apply keeps_saveGroup. by left.
Qed.

Lemma pubkey_free_groupSend (groupName message : string) (w : World) :
  pubkey_free w -> pubkey_free (groupSend P E groupName message w).
Proof.
  apply keeps_action. unfold groupSendBody.
  eapply keeps_bind; [apply keeps_loadGroup | intros [group |] Hgroup]; [| apply keeps_throw].
  eapply keeps_bind; [by apply (keeps_orThrow _ _ (fun _ => True)) | intros myChainKey _].
  eapply keeps_bind; [apply keeps_randomBytes | intros iv _].
  eapply keeps_bind; [by apply (keeps_orThrow _ _ (fun _ => True)) | intros mySigningKey _].
  eapply keeps_bind; [by apply (keeps_orThrow _ _ (fun _ => True)) | intros signature _].
  eapply keeps_bind; [| intros _ _; apply keeps_post].
  apply keeps_saveGroup. left. cbn. by rewrite (Hgroup group eq_refl).
Qed.

Lemma pubkey_free_leaveGroup (groupName : string) (w : World) :
  pubkey_free w -> pubkey_free (leaveGroup P E groupName w).
Proof.
  apply keeps_action. unfold leaveGroupBody.
  eapply keeps_bind; [apply keeps_loadGroup | intros [group |] Hgroup]; [| apply keeps_throw].
  eapply keeps_bind; [by apply (keeps_orThrow _ _ (fun _ => True)) | intros mySigningKey _].
  eapply keeps_bind; [by apply (keeps_orThrow _ _ (fun _ => True)) | intros signature _].
  eapply keeps_bind; [apply keeps_post | intros _ _; apply keeps_deleteGroup].
Qed.

End PubKey.

(** Whatever commands were run before, no group in the file has a
    [mySigningPubKey], so the key update that [redistributeKeys] builds from
    a group of the file has no [signingPubKey]. *)
Lemma reachable_pubkey_free (P : Primitives) (w : World) :
  reachable P w -> pubkey_free w.
Proof.
  induction 1 as [| E name key w _ IH | E groupName members key w _ IH
                  | E groupName message w _ IH | E groupName w _ IH].
  - intros name group. discriminate.
  - by apply pubkey_free_getMessages.
  - by apply pubkey_free_createGroup.
  - by apply pubkey_free_groupSend.
  - by apply pubkey_free_leaveGroup.
Qed.

Lemma key_update_has_no_signing_key (P : Primitives) (w : World)
    (groupName : string) (group : Group) (groupId : option string) :
  reachable P w ->
  entry w groupName = Some group ->
  p_signingPubKey (rotationNotice groupId group) = None.
Proof. intros Hw Hentry. apply (reachable_pubkey_free P w Hw groupName group Hentry). Qed.

(** ** What the departure of a member changes, in general *)

(** On a group with both key tables and a writable file, the branch writes
    an entry with a chain key made of 32 bytes of fresh entropy, and only
    then starts the redistribution. The entry keeps every member and every
    key of a member, because the name to remove is read from the rest
    object; the redistribution is therefore run over all the members the
    group had. *)
Lemma groupLeave_keeps_everyone (P : Primitives) (E : Environment) (key : string)
    (parsed : Payload) (group : Group) (memberKeys signingKeys : gmap string string)
    (w : World) :
  entry w (Js.key (p_groupId parsed)) = Some group ->
  g_memberKeys group = Some memberKeys ->
  g_signingKeys group = Some signingKeys ->
  disk_writable E = true ->
  exists rotated w1,
    groupLeave P E key (rest_of parsed) w =
      redistributeKeys P E key (p_groupId parsed) (g_members group) w1 /\
    entry w1 (Js.key (p_groupId parsed)) = Some rotated /\
    last (events w1) = Some (EvWrite (Js.key (p_groupId parsed)) rotated) /\
    g_members rotated = g_members group /\
    (forall member, member <> "undefined" ->
       (g_memberKeys rotated ≫= fun keys => keys !! member) = memberKeys !! member /\
       (g_signingKeys rotated ≫= fun keys => keys !! member) = signingKeys !! member) /\
    g_myChainKey rotated = Some (Hex.toHex (map (entropy E) (seq (drawn w) 32))) /\
    length (map (entropy E) (seq (drawn w) 32)) = 32.
Proof.
  intros Hentry Hmk Hsk Hdisk.
  pose proof (groupLeave_run P E key (rest_of parsed) group memberKeys signingKeys w
                Hentry Hmk Hsk Hdisk) as Hrun.
  cbv zeta in Hrun. change (p_groupId (rest_of parsed)) with (p_groupId parsed) in Hrun.
  change (p_senderId (rest_of parsed)) with (@None string) in Hrun.
  set (rotated := afterLeave E group None (map (entropy E) (seq (drawn w) 32))
                    memberKeys signingKeys) in Hrun.
  destruct (afterLeave_undefined E group (map (entropy E) (seq (drawn w) 32))
              memberKeys signingKeys "x" ltac:(discriminate)) as (Hmembers & _).
  fold rotated in Hmembers. rewrite Hmembers in Hrun.
  eexists rotated, _. split; [exact Hrun |].
  split; [unfold entry; cbn [disk]; simpl; apply lookup_insert_eq |].
  split; [cbn [events]; by rewrite last_app |].
  split; [exact Hmembers |].
  split.
  - intros member Hne.
    destruct (afterLeave_undefined E group (map (entropy E) (seq (drawn w) 32))
                memberKeys signingKeys member Hne) as (_ & H1 & H2). by split.
  - split; [reflexivity |]. by rewrite length_map, length_seq.
Qed.

(** The new chain key does not depend on the old one: two groups that
    differ in their chain key only get the same new chain key. *)
Lemma rotation_ignores_old_chain_key (E : Environment) (group : Group)
    (otherChainKey : option string) (who : option string) (bytes : list byte)
    (memberKeys signingKeys : gmap string string) :
  let other :=
    {| g_name := g_name group; g_groupInboxId := g_groupInboxId group;
       g_creator := g_creator group; g_myChainKey := otherChainKey;
       g_mySigningKey := g_mySigningKey group;
       g_mySigningPubKey := g_mySigningPubKey group; g_members := g_members group;
       g_memberKeys := g_memberKeys group; g_signingKeys := g_signingKeys group;
       g_updatedAt := g_updatedAt group |} in
  afterLeave E other who bytes memberKeys signingKeys
    = afterLeave E group who bytes memberKeys signingKeys.
Proof. reflexivity. Qed.

(** * More of the code *)

(** ** lib/local.ts: the group store *)



(** ** index.ts: leave-group *)

Section LeaveGroup.

Context (P : Primitives) (E : Environment).

(** The request that [leave-group] posts: the notice itself, in the clear,
    to the inbox of the group. *)
Lemma leaveGroupBody_run (groupName : string) (group : Group)
    (mySigningKey signature : string) (w : World) :
  entry w groupName = Some group ->
  g_mySigningKey group = Some mySigningKey ->
  sign_keccak256 P mySigningKey (json_stringify P (leaveNotice groupName group))
    = Some signature ->
  leaveGroupBody P E groupName w =
    (post E Cli {| r_recipientHash := g_groupInboxId group;
                   r_message := json_stringify P (leaveNotice groupName group);
                   r_signature := signature;
                   r_senderId := None |} ;;;
     deleteGroup E groupName) w.
Proof.
  intros Hentry Hsk Hsig. unfold entry in Hentry.
  unfold leaveGroupBody, bind at 1, loadGroup. rewrite Hentry, Hsk.
  unfold bind at 1, orThrow at 1, ret at 1. rewrite Hsig.
  unfold bind at 1, orThrow at 1, ret at 1. reflexivity.
Qed.

End LeaveGroup.

(** X2. [leave-group] on a group whose entry has a signing key: when the
    request goes through and the file can be written, the run posts one
    record and then deletes the entry. The record goes to the inbox id of
    the group and its message is the notice itself, not sealed: the JSON of
    [{type: GROUP_LEAVE, groupId, senderId: group.creator}]. Afterwards
    [loadGroup] finds no such group, and every other group is as before. *)
Theorem leave_group_posts_then_deletes (P : Primitives) (E : Environment)
    (groupName : string) (group : Group) (mySigningKey signature : string) (w : World) :
  entry w groupName = Some group ->
  g_mySigningKey group = Some mySigningKey ->
  let notice := json_stringify P (leaveNotice groupName group) in
  sign_keccak256 P mySigningKey notice = Some signature ->
  let request :=
    {| r_recipientHash := g_groupInboxId group; r_message := notice;
       r_signature := signature; r_senderId := None |} in
  post_ok E Cli request = true ->
  disk_writable E = true ->
  let w' := leaveGroup P E groupName w in
  since w w' = [EvPost Cli request; EvDelete groupName] /\
  p_senderId (leaveNotice groupName group) = g_creator group /\
  entry w' groupName = None /\
  (forall other, other <> groupName -> entry w' other = entry w other).
Proof.
  intros Hentry Hsk notice Hsig request Hpost Hdisk w'.
  destruct (disk w) as [allGroups |] eqn:Hfile; [| by unfold entry in Hentry; rewrite Hfile in Hentry].
  assert (Hw' : w' = {| disk := Some (delete groupName allGroups); drawn := drawn w;
                        events := events w ++ [EvPost Cli request; EvDelete groupName] |}).
  { subst w'. unfold leaveGroup. apply action_normal.
    rewrite (leaveGroupBody_run P E groupName group mySigningKey signature) by assumption.
    fold notice request. unfold bind, post, bind, emit. rewrite Hpost. unfold ret, deleteGroup.
    cbn [disk add_events drawn events]. rewrite Hfile, Hdisk. by rewrite <- app_assoc. }
  rewrite Hw'. unfold since, entry. cbn [disk events]. simpl.
  rewrite drop_app_length, lookup_delete_eq.
  split; [reflexivity |]. split; [reflexivity |]. split; [reflexivity |].
  intros other Hne. rewrite Hfile. simpl. apply lookup_delete_ne. congruence.
Qed.

Lemma leave_group_posts_then_deletes_witness :
  entry Scenario.alice1 "team" <> None /\
  entry Scenario.aliceLeavesTeam "team" = None /\
  recipients (since Scenario.alice1 Scenario.aliceLeavesTeam) = [Some Scenario.teamInbox].
Proof.
  destruct (entry Scenario.alice1 "team") as [group |] eqn:Hentry;
    [| by vm_compute in Hentry].
  vm_compute in Hentry. injection Hentry as <-.
  epose proof (leave_group_posts_then_deletes Scenario.P Scenario.online "team" _ _ _
                 Scenario.alice1 ltac:(by vm_compute) eq_refl eq_refl eq_refl eq_refl)
    as (Hsince & _ & Hgone & _).
  fold Scenario.aliceLeavesTeam in Hsince, Hgone.
  split; [discriminate |]. split; [exact Hgone |]. by rewrite Hsince.
Defined.



(** ** index.ts: reading a group inbox changes nothing *)

Lemma posts_nil (evs : list Event) :
  (forall ev, In ev evs -> isPost ev = false) -> posts evs = [].
Proof.
  intros H. unfold posts. destruct (omap _ evs) as [| r l] eqn:Hposts; [reflexivity |].
  assert (Hin : r ∈ omap (fun ev => match ev with EvPost _ r => Some r | _ => None end) evs)
    by (rewrite Hposts; left).
  apply list_elem_of_omap in Hin as (ev & Hev & Hr). apply list_elem_of_In, H in Hev.
  by destruct ev.
Qed.

(** X4. Whatever records a group inbox hands out, reading it writes nothing
    to [groups.json], posts nothing, draws no entropy and, apart from the
    request for the inbox and a failed fetch, only ever shows messages. A
    notice that [leave-group] has posted to the group inbox therefore
    rotates no key at a member who reads that inbox. *)
Theorem group_inbox_is_read_only (P : Primitives) (E : Environment)
    (name key : string) (group : Group) (w : World) :
  key <> "" ->
  entry w name = Some group ->
  let w' := getMessages P E name key w in
  disk w' = disk w /\
  drawn w' = drawn w /\
  posts (since w w') = [] /\
  (forall ev, In ev (since w w') ->
     ev = EvGetMessages (Js.key (g_groupInboxId group)) \/
     ev = EvError "fetch failed" \/
     exists id createdAt senderId text, ev = EvShow id createdAt senderId text).
Proof.
  intros Hkey Hentry w'. subst w'.
  assert (Hevents : forall ev, In ev (since w (getMessages P E name key w)) ->
            ev = EvGetMessages (Js.key (g_groupInboxId group)) \/
            ev = EvError "fetch failed" \/
            exists id createdAt senderId text, ev = EvShow id createdAt senderId text).
  { rewrite (getMessages_group P E name key group w Hkey Hentry).
    destruct (inbox E (Js.key (g_groupInboxId group))) as [messages |];
      rewrite since_add_events; intros ev.
    - intros [<- | Hin]; [by left |]. right. right.
      apply in_concat in Hin as (out & Hout & Hin).
      apply in_map_iff in Hout as (msg & <- & _).
      apply groupOutput_shows in Hin as (? & ? & ? & ->). eauto.
    - intros [<- | [<- | []]]; auto. }
  destruct (group_inbox_leaves_store P E name key group w Hkey Hentry) as [Hdisk Hdrawn].
  repeat split; try assumption.
  apply posts_nil. intros ev Hin.
  destruct (Hevents ev Hin) as [-> | [-> | (? & ? & ? & ? & ->)]]; reflexivity.
Qed.

Lemma group_inbox_is_read_only_witness :
  disk Scenario.bobGarbageFirst = disk Scenario.bob1 /\
  posts (since Scenario.bob1 Scenario.bobGarbageFirst) = [].
Proof.
  destruct (entry Scenario.bob1 "team") as [group |] eqn:Hentry;
    [| by vm_compute in Hentry].
  destruct (group_inbox_is_read_only Scenario.P
              (Toy.env 128 true []
                 (fun inboxId => (fun l => Scenario.garbage :: l)
                                   <$> Toy.relay (events Scenario.alice3) inboxId))
              "team" "key/bob" group Scenario.bob1 ltac:(discriminate) Hentry)
    as (Hdisk & _ & Hposts & _).
  by split.
Defined.

(** ** index.ts: group-send that cannot go through *)



(** ** index.ts: a member who holds the group from the setup envelope only *)

Section SetupOnly.

Context (P : Primitives).

(** What the [GROUP_SETUP] branch leaves in the file. *)
Lemma groupSetup_entry (E : Environment) (data : Payload) (w : World) :
  disk_writable E = true ->
  entry (snd (groupSetup E data w)) (Js.key (p_groupId data)) =
    Some {| g_name := p_groupId data;
            g_groupInboxId := p_groupInboxId data;
            g_creator := p_creator data;
            g_myChainKey := entry w (Js.key (p_groupId data)) ≫= g_myChainKey;
            g_mySigningKey := entry w (Js.key (p_groupId data)) ≫= g_mySigningKey;
            g_mySigningPubKey := entry w (Js.key (p_groupId data)) ≫= g_mySigningPubKey;
            g_members := entry w (Js.key (p_groupId data)) ≫= g_members;
            g_memberKeys := Some (computed (p_creator data) (p_chainKey data));
            g_signingKeys := Some (computed (p_creator data) (p_signingPubKey data));
            g_updatedAt := Some (now E) |}.
Proof.
  intros Hdisk. unfold groupSetup, bind, saveGroup. rewrite Hdisk.
  unfold entry at 1. cbn [snd disk ret]. simpl mbind at 1.
  rewrite lookup_insert_eq, entry_default. reflexivity.
Qed.

End SetupOnly.



(** ** index.ts: the sender's chain over a series of sends *)

Lemma entry_afterSend_blob (P : Primitives) (E : Environment) (group : Group)
    (myChainKey chainKey message : string) (iv : list byte) :
  sendBlob P E (afterSend P E group myChainKey) chainKey message iv
    = sendBlob P E group chainKey message iv.
Proof. reflexivity. Qed.

Lemma posts_app (a b : list Event) : posts (a ++ b) = posts a ++ posts b.
Proof. unfold posts. apply omap_app. Qed.

Lemma chainBlobs_afterSend (P : Primitives) (E : Environment) (group : Group)
    (myChainKey : string) (messages : list string) :
  forall chainKey offset,
    chainBlobs P E (afterSend P E group myChainKey) chainKey offset messages
      = chainBlobs P E group chainKey offset messages.
Proof.
  induction messages as [| message rest IH]; intros chainKey offset; simpl;
    [reflexivity |].
  by rewrite IH.
Qed.

Lemma sends_chain (P : Primitives) (E : Environment) (groupName : string)
    (messages : list string) :
  forall (group : Group) (chainKey : list byte) (mySigningKey : string) (w : World),
    entry w groupName = Some group ->
    g_myChainKey group = Some (Hex.toHex chainKey) ->
    g_mySigningKey group = Some mySigningKey ->
    disk_writable E = true ->
    (forall blob, sign_keccak256 P mySigningKey blob <> None) ->
    exists group' evs,
      entry (sends P E groupName messages w) groupName = Some group' /\
      g_myChainKey group'
        = Some (Hex.toHex (Nat.iter (length messages) (ratchet P) chainKey)) /\
      g_creator group' = g_creator group /\
      g_groupInboxId group' = g_groupInboxId group /\
      g_mySigningKey group' = Some mySigningKey /\
      drawn (sends P E groupName messages w) = drawn w + 16 * length messages /\
      events (sends P E groupName messages w) = events w ++ evs /\
      r_message <$> posts evs = chainBlobs P E group chainKey (drawn w) messages.
Proof.
  induction messages as [| message rest IH];
    intros group chainKey mySigningKey w Hentry Hck Hsk Hdisk Hsign.
  - exists group, []. simpl. rewrite app_nil_r, Nat.add_0_r. by repeat split.
  - destruct (sign_keccak256 P mySigningKey
                (sendBlob P E group (Hex.toHex chainKey) message
                   (map (entropy E) (seq (drawn w) 16)))) as [signature |] eqn:Hsig;
      [| by apply Hsign in Hsig].
    pose proof (groupSend_run P E groupName message group (Hex.toHex chainKey) mySigningKey
                  signature w Hentry Hck Hsk Hsig) as Hrun.
    cbv zeta in Hrun. unfold saved in Hrun. rewrite Hdisk in Hrun.
    set (w1 := groupSend P E groupName message w) in *.
    assert (Hentry1 : entry w1 groupName = Some (afterSend P E group (Hex.toHex chainKey))).
    { rewrite Hrun. unfold entry. cbn [disk add_events]. simpl. apply lookup_insert_eq. }
    assert (Hck1 : g_myChainKey (afterSend P E group (Hex.toHex chainKey))
                   = Some (Hex.toHex (ratchet P chainKey))).
    { unfold afterSend, ratchet. cbn [g_myChainKey]. by rewrite fromHex_toHex. }
    destruct (IH (afterSend P E group (Hex.toHex chainKey)) (ratchet P chainKey) mySigningKey w1
                Hentry1 Hck1 Hsk Hdisk Hsign)
      as (group' & evs & Hentry' & Hck' & Hcreator & Hinbox & Hsk' & Hdrawn & Hevents & Hblobs).
    exists group'. eexists. cbn [sends fold_left]. fold w1.
    change (fold_left _ rest w1) with (sends P E groupName rest w1).
    split; [exact Hentry' |].
    split; [by rewrite Hck', <- Nat.iter_succ_r |].
    split; [exact Hcreator |]. split; [exact Hinbox |]. split; [exact Hsk' |].
    assert (Hdrawn1 : drawn w1 = drawn w + 16) by (by rewrite Hrun).
    split; [rewrite Hdrawn, Hdrawn1; simpl length; lia |].
    split.
    + rewrite Hevents, Hrun. cbn [events add_events]. rewrite <- !app_assoc. reflexivity.
    + rewrite Hdrawn1, chainBlobs_afterSend in Hblobs.
      rewrite !posts_app, !fmap_app, Hblobs.
      destruct (post_ok E Cli _); reflexivity.
Qed.

(** X7. A series of successful saves by [group-send] walks the sender's
    chain: after n sends the chain key in the file is the n-th ratchet step
    of the key the series started from, n times 16 bytes of entropy have
    been drawn, n records have been posted under the [creator] of the
    entry, and the i-th record is sealed under the message key of the i-th
    chain key of the walk. *)
Theorem group_send_walks_the_chain (P : Primitives) (E : Environment)
    (groupName : string) (messages : list string) (group : Group)
    (chainKey : list byte) (mySigningKey : string) (w : World) :
  entry w groupName = Some group ->
  g_myChainKey group = Some (Hex.toHex chainKey) ->
  g_mySigningKey group = Some mySigningKey ->
  disk_writable E = true ->
  (forall blob, sign_keccak256 P mySigningKey blob <> None) ->
  let w' := sends P E groupName messages w in
  (entry w' groupName ≫= g_myChainKey)
    = Some (Hex.toHex (Nat.iter (length messages) (ratchet P) chainKey)) /\
  drawn w' = drawn w + 16 * length messages /\
  r_message <$> posts (since w w')
    = chainBlobs P E group chainKey (drawn w) messages /\
  r_senderId <$> posts (since w w') = replicate (length messages) (g_creator group).
Proof.
  intros Hentry Hck Hsk Hdisk Hsign w'.
  assert (Hsenders : forall msgs g c w0,
            entry w0 groupName = Some g -> g_myChainKey g = Some (Hex.toHex c) ->
            g_mySigningKey g = Some mySigningKey ->
            r_senderId <$> posts (since w0 (sends P E groupName msgs w0))
              = replicate (length msgs) (g_creator g)).
  { induction msgs as [| m r IH]; intros g c w0 Hg Hc Hs.
    - unfold since. simpl. by rewrite drop_all.
    - destruct (sign_keccak256 P mySigningKey
                  (sendBlob P E g (Hex.toHex c) m (map (entropy E) (seq (drawn w0) 16))))
        as [signature |] eqn:Hsig; [| by apply Hsign in Hsig].
      pose proof (groupSend_run P E groupName m g (Hex.toHex c) mySigningKey signature w0
                    Hg Hc Hs Hsig) as Hrun.
      cbv zeta in Hrun. unfold saved in Hrun. rewrite Hdisk in Hrun.
      set (w1 := groupSend P E groupName m w0) in *.
      assert (Hg1 : entry w1 groupName = Some (afterSend P E g (Hex.toHex c))).
      { rewrite Hrun. unfold entry. cbn [disk add_events]. simpl. apply lookup_insert_eq. }
      assert (Hc1 : g_myChainKey (afterSend P E g (Hex.toHex c))
                    = Some (Hex.toHex (ratchet P c))).
      { unfold afterSend, ratchet. cbn [g_myChainKey]. by rewrite fromHex_toHex. }
      pose proof (IH _ _ w1 Hg1 Hc1 Hs) as Hrest.
      destruct (sends_chain P E groupName r _ _ mySigningKey w1 Hg1 Hc1 Hs Hdisk Hsign)
        as (_ & evs & _ & _ & _ & _ & _ & _ & Hevents & _).
      cbn [sends fold_left]. fold w1.
      change (fold_left _ r w1) with (sends P E groupName r w1) in *.
      unfold since in *. rewrite Hevents in *. rewrite drop_app_length in Hrest.
      rewrite Hrun. cbn [events add_events]. rewrite <- !app_assoc, drop_app_length.
      rewrite !posts_app, !fmap_app, Hrest.
      destruct (post_ok E Cli _); reflexivity. }
  destruct (sends_chain P E groupName messages group chainKey mySigningKey w
              Hentry Hck Hsk Hdisk Hsign)
    as (group' & evs & Hentry' & Hck' & _ & _ & _ & Hdrawn & Hevents & Hblobs).
  fold w' in Hentry', Hdrawn, Hevents.
  split; [by rewrite Hentry' |]. split; [exact Hdrawn |].
  split.
  - unfold since. by rewrite Hevents, drop_app_length.
  - by apply (Hsenders messages group chainKey w).
Qed.

Lemma group_send_walks_the_chain_witness :
  (entry Scenario.alice3 "team" ≫= g_myChainKey)
    = Some (Hex.toHex (ratchet Scenario.P (ratchet Scenario.P (Hex.fromHex Scenario.chainKey0)))).
Proof.
  destruct (entry Scenario.alice1 "team") as [group |] eqn:Hentry;
    [| by vm_compute in Hentry].
  vm_compute in Hentry. injection Hentry as <-.
  epose proof (group_send_walks_the_chain Scenario.P Scenario.online "team" ["hi"; "again"] _
                 (Hex.fromHex Scenario.chainKey0) _ Scenario.alice1
                 ltac:(by vm_compute) ltac:(by vm_compute) eq_refl eq_refl
                 ltac:(discriminate)) as (Hkey & _).
  exact Hkey.
Defined.

(** ** lib/group.ts: redistributeKeys *)

Section Redistribution.

Context (P : Primitives) (E : Environment).

Lemma redistributeTo_succeeds (key : string) (groupId : option string) (group : Group)
    (member : string) :
  succeeds (redistributeTo P E key groupId (Some group) member) ->
  Some member <> g_creator group ->
  exists publicKey encrypted signature,
    directory E Api member = Some publicKey /\
    encryptWithPublicKey P publicKey (json_stringify P (rotationNotice groupId group))
      = Some encrypted /\
    alone (redistributeTo P E key groupId (Some group) member)
      = [EvGetUser Api member;
         EvPost Api (keyUpdateFor P groupId group member encrypted signature)].
Proof.
  intros [[] Hok] Hne. revert Hok.
  unfold alone, blank, redistributeTo, keyUpdateFor.
  rewrite bool_decide_eq_false_2 by exact Hne.
  unfold fetchPublicKey, post, bind, emit, orThrow, ret, throw. cbn [fst snd].
  destruct (directory E Api member) as [publicKey |]; [| discriminate].
  destruct (encryptWithPublicKey P publicKey _) as [encrypted |] eqn:Henc; [| discriminate].
  destruct (signMessage P key encrypted) as [signature |]; [| discriminate].
  destruct (post_ok E Api _); [| discriminate].
  intros _. exists publicKey, encrypted, signature. by repeat split.
Qed.

Lemma redistribution_events (key : string) (groupId : option string) (group : Group)
    (members : list string) :
  Forall (fun member => succeeds (redistributeTo P E key groupId (Some group) member)) members ->
  let evs :=
    concat (map (fun member => alone (redistributeTo P E key groupId (Some group) member))
              members) in
  recipients evs
    = (fun member => Some (hashUsername P member))
        <$> filter (fun member => Some member <> g_creator group) members /\
  (forall req, In req (posts evs) ->
     exists publicKey,
       encryptWithPublicKey P publicKey (json_stringify P (rotationNotice groupId group))
         = Some (r_message req)).
Proof.
  induction 1 as [| member rest Hmember _ IH]; [by split |].
  cbn [map concat]. unfold recipients in *. rewrite posts_app, fmap_app.
  destruct IH as [IHr IHp]. rewrite IHr.
  destruct (decide (Some member = g_creator group)) as [Hself | Hother].
  - rewrite filter_cons_False by (intros H; by apply H).
    pose proof (redistributeTo_self P E key groupId group member blank Hself) as Hrun.
    assert (Halone : alone (redistributeTo P E key groupId (Some group) member) = [])
      by (unfold alone; by rewrite Hrun).
    rewrite Halone. split; [reflexivity |]. exact IHp.
  - destruct (redistributeTo_succeeds key groupId group member Hmember Hother)
      as (publicKey & encrypted & signature & _ & Henc & ->).
    rewrite filter_cons_True by exact Hother.
    split; [reflexivity |].
    intros req [<- | Hin]; [by exists publicKey | by apply IHp].
Qed.

End Redistribution.

(** X8. [redistributeKeys] works from the entry that is in the file: when
    every member is reached, it ends normally, leaves the file as it was
    and posts, in the order of the member list, one record to the blinded
    inbox of every member other than [group.creator]; the message of each
    record is the notice [{type: GROUP_KEY_UPDATE, groupId, chainKey,
    signingPubKey}] sealed for some directory key, with [chainKey] and
    [signingPubKey] read from the entry in the file. Without a member list
    it throws; without an entry it throws at the first member. *)
Theorem redistributeKeys_posts_the_stored_key (P : Primitives) (E : Environment)
    (key : string) (groupId : option string) (w : World) :
  (forall group members,
     entry w (Js.key groupId) = Some group ->
     Forall (fun member => succeeds (redistributeTo P E key groupId (Some group) member))
       members ->
     let w' := snd (redistributeKeys P E key groupId (Some members) w) in
     fst (redistributeKeys P E key groupId (Some members) w) = Normal tt /\
     disk w' = disk w /\
     recipients (since w w')
       = (fun member => Some (hashUsername P member))
           <$> filter (fun member => Some member <> g_creator group) members /\
     (forall req, In req (posts (since w w')) ->
        exists publicKey,
          encryptWithPublicKey P publicKey (json_stringify P (rotationNotice groupId group))
            = Some (r_message req)) /\
     p_chainKey (rotationNotice groupId group) = g_myChainKey group /\
     p_signingPubKey (rotationNotice groupId group) = g_mySigningPubKey group) /\
  redistributeKeys P E key groupId None w = (Throw "members is not iterable", w) /\
  (forall member rest,
     entry w (Js.key groupId) = None ->
     redistributeKeys P E key groupId (Some (member :: rest)) w
       = (Throw "Cannot read properties of null (reading 'creator')", w)).
Proof.
  split; [| split].
  - intros group members Hentry Hall w'. subst w'. unfold entry in Hentry.
    unfold redistributeKeys, bind, loadGroup. rewrite Hentry.
    rewrite for_of_all_succeed by (auto using oblivious_redistributeTo).
    cbn [fst snd]. rewrite since_add_events.
    destruct (redistribution_events P E key groupId group members Hall) as [Hr Hp].
    repeat split; assumption.
  - reflexivity.
  - intros member rest Hentry. unfold entry in Hentry.
    unfold redistributeKeys, bind, loadGroup. rewrite Hentry. reflexivity.
Qed.

Lemma redistributeKeys_witness :
  recipients (since Scenario.alice4
                (snd (redistributeKeys Scenario.P Scenario.online "key/alice" (Some "team")
                        (Some ["alice"; "bob"; "carol"]) Scenario.alice4)))
    = [Some "sha256/bob"; Some "sha256/carol"].
Proof.
  destruct (entry Scenario.alice4 "team") as [group |] eqn:Hentry;
    [| by vm_compute in Hentry].
  destruct (redistributeKeys_posts_the_stored_key Scenario.P Scenario.online "key/alice"
              (Some "team") Scenario.alice4) as [Hok _].
  destruct (Hok group ["alice"; "bob"; "carol"] Hentry) as (_ & _ & Hrecipients & _).
  { vm_compute in Hentry. injection Hentry as <-.
    repeat constructor; exists tt; by vm_compute. }
  rewrite Hrecipients. vm_compute in Hentry. injection Hentry as <-. by vm_compute.
Defined.

(** ** index.ts: a departure while the file cannot be written *)

Lemma groupLeave_unsaved (P : Primitives) (E : Environment) (key : string)
    (data : Payload) (group : Group) (memberKeys signingKeys : gmap string string)
    (w : World) :
  entry w (Js.key (p_groupId data)) = Some group ->
  g_memberKeys group = Some memberKeys ->
  g_signingKeys group = Some signingKeys ->
  disk_writable E = false ->
  groupLeave P E key data w =
    redistributeKeys P E key (p_groupId data)
      (withoutMember (p_senderId data) <$> g_members group)
      {| disk := disk w;
         drawn := drawn w + 32;
         events := events w ++ [EvLeft (p_senderId data) (p_groupId data);
                                EvSaveFailed (Js.key (p_groupId data))] |}.
Proof.
  intros Hentry Hmk Hsk Hdisk. unfold entry in Hentry.
  unfold groupLeave, bind, emit, loadGroup, randomBytes, saveGroup.
  cbn [disk drawn events add_events].
  rewrite Hentry, Hmk, Hsk, Hdisk. cbn [orThrow ret].
  cbn [disk drawn events add_events g_members].
  by rewrite <- app_assoc.
Qed.

(** X9. When a departure is processed while [groups.json] cannot be
    written, the new chain key exists in memory only: the save fails, the
    file keeps the old entry, and [redistributeKeys], which reads the group
    from the file again, seals and posts the old chain key to the members
    as if it were the new one. *)
Theorem failed_save_redistributes_the_old_key (P : Primitives) (E : Environment)
    (key : string) (parsed : Payload) (group : Group) (members : list string)
    (memberKeys signingKeys : gmap string string) (w : World) :
  entry w (Js.key (p_groupId parsed)) = Some group ->
  g_memberKeys group = Some memberKeys ->
  g_signingKeys group = Some signingKeys ->
  g_members group = Some members ->
  disk_writable E = false ->
  Forall (fun member =>
            succeeds (redistributeTo P E key (p_groupId parsed) (Some group) member)) members ->
  let w' := snd (groupLeave P E key (rest_of parsed) w) in
  disk w' = disk w /\
  recipients (since w w')
    = (fun member => Some (hashUsername P member))
        <$> filter (fun member => Some member <> g_creator group) members /\
  (forall req, In req (posts (since w w')) ->
     exists publicKey,
       encryptWithPublicKey P publicKey
         (json_stringify P (rotationNotice (p_groupId parsed) group)) = Some (r_message req)) /\
  p_chainKey (rotationNotice (p_groupId parsed) group) = g_myChainKey group.
Proof.
  intros Hentry Hmk Hsk Hmembers Hdisk Hall w'. subst w'.
  rewrite (groupLeave_unsaved P E key (rest_of parsed) group memberKeys signingKeys w)
    by assumption.
  change (p_groupId (rest_of parsed)) with (p_groupId parsed).
  change (p_senderId (rest_of parsed)) with (@None string).
  rewrite Hmembers. cbn [fmap option_fmap option_map]. rewrite withoutMember_undefined.
  set (w1 := {| disk := disk w; drawn := drawn w + 32;
                events := events w ++ [EvLeft None (p_groupId parsed);
                                       EvSaveFailed (Js.key (p_groupId parsed))] |}).
  destruct (redistributeKeys_posts_the_stored_key P E key (p_groupId parsed) w1) as [Hok _].
  destruct (Hok group members Hentry Hall) as (_ & Hfile & Hrec & Hposts & _).
  destruct (appends_redistributeKeys P E key (p_groupId parsed) (Some members) w1)
    as [evs Hevs].
  assert (Hsince : since w (snd (redistributeKeys P E key (p_groupId parsed) (Some members) w1))
                   = [EvLeft None (p_groupId parsed); EvSaveFailed (Js.key (p_groupId parsed))]
                     ++ since w1 (snd (redistributeKeys P E key (p_groupId parsed)
                                         (Some members) w1))).
  { unfold since. rewrite Hevs.
    rewrite (drop_app_length (events w1) evs). unfold w1. cbn [events].
    by rewrite <- app_assoc, drop_app_length. }
  rewrite Hsince. unfold recipients in *. rewrite posts_app. cbn [posts omap app].
  repeat split; assumption.
Qed.

Lemma failed_save_redistributes_witness :
  disk (snd (groupLeave Scenario.P (Toy.env 0 false [] Scenario.offline) "key/alice"
               (rest_of Scenario.bobLeaves) Scenario.alice4))
    = disk Scenario.alice4 /\
  recipients (since Scenario.alice4
                (snd (groupLeave Scenario.P (Toy.env 0 false [] Scenario.offline) "key/alice"
                        (rest_of Scenario.bobLeaves) Scenario.alice4)))
    = [Some "sha256/bob"; Some "sha256/carol"].
Proof.
  destruct (entry Scenario.alice4 "team") as [group |] eqn:Hentry;
    [| by vm_compute in Hentry].
  vm_compute in Hentry. injection Hentry as <-.
  epose proof (failed_save_redistributes_the_old_key Scenario.P
                 (Toy.env 0 false [] Scenario.offline) "key/alice" Scenario.bobLeaves _
                 ["alice"; "bob"; "carol"] _ _ Scenario.alice4
                 ltac:(by vm_compute) eq_refl eq_refl eq_refl eq_refl
                 ltac:(repeat constructor; exists tt; by vm_compute))
    as (Hdisk & Hrec & _).
  split; [exact Hdisk |]. rewrite Hrec. by vm_compute.
Defined.

(** ** index.ts: what create-group sends and stores *)

Lemma distributeTo_succeeds (P : Primitives) (E : Environment) (key : string)
    (info : Payload) (member : string) :
  succeeds (distributeTo P E key info member) ->
  exists publicKey encrypted signature,
    directory E Cli member = Some publicKey /\
    encryptWithPublicKey P publicKey (json_stringify P info) = Some encrypted /\
    signMessage P key encrypted = Some signature /\
    alone (distributeTo P E key info member)
      = [EvGetUser Cli member;
         EvPost Cli {| r_recipientHash := Some (hashUsername P member);
                       r_message := encrypted;
                       r_signature := signature;
                       r_senderId := None |}].
Proof.
  intros [[] Hok]. revert Hok.
  unfold alone, blank, distributeTo, fetchPublicKey, post, bind, emit, orThrow, ret, throw.
  cbn [fst snd].
  destruct (directory E Cli member) as [publicKey |]; [| discriminate].
  destruct (encryptWithPublicKey P publicKey _) as [encrypted |] eqn:Henc; [| discriminate].
  destruct (signMessage P key encrypted) as [signature |] eqn:Hsig; [| discriminate].
  destruct (post_ok E Cli _); [| discriminate].
  intros _. exists publicKey, encrypted, signature. by repeat split.
Qed.

Lemma distribution_events (P : Primitives) (E : Environment) (key : string)
    (info : Payload) (members : list string) :
  Forall (fun member => succeeds (distributeTo P E key info member)) members ->
  let evs := concat (map (fun member => alone (distributeTo P E key info member)) members) in
  recipients evs = (fun member => Some (hashUsername P member)) <$> members /\
  (forall req, In req (posts evs) ->
     r_senderId req = None /\
     signMessage P key (r_message req) = Some (r_signature req) /\
     exists publicKey,
       encryptWithPublicKey P publicKey (json_stringify P info) = Some (r_message req)).
Proof.
  induction 1 as [| member rest Hmember _ IH]; [by split |].
  cbn [map concat]. unfold recipients in *. rewrite posts_app, fmap_app.
  destruct IH as [IHr IHp]. rewrite IHr.
  destruct (distributeTo_succeeds P E key info member Hmember)
    as (publicKey & encrypted & signature & _ & Henc & Hsig & ->).
  split; [reflexivity |].
  intros req [<- | Hin]; [| by apply IHp].
  split; [reflexivity |]. split; [exact Hsig |]. by exists publicKey.
Qed.



(** ** index.ts: send-message, and reading what it sent *)

Section DirectMessages.

Context (P : Primitives).

Lemma sendMessage_run (E : Environment) (senderUsername toUsername message key : string)
    (recipientPubKey encrypted signature : string) (w : World) :
  directory E Cli toUsername = Some recipientPubKey ->
  encryptWithPublicKey P recipientPubKey
    (json_stringify P (textPayload message (Some senderUsername) (now E))) = Some encrypted ->
  signMessage P key encrypted = Some signature ->
  let request :=
    {| r_recipientHash := Some (hashUsername P toUsername); r_message := encrypted;
       r_signature := signature; r_senderId := None |} in
  sendMessage P E senderUsername toUsername message key w =
    add_events w
      ([EvGetUser Cli toUsername; EvPost Cli request]
       ++ if post_ok E Cli request then [] else [EvError "fetch failed"]).
Proof.
  intros Hdir Henc Hsig request.
  assert (Hbody : sendMessageBody P E senderUsername toUsername message key w =
                    post E Cli request (add_events w [EvGetUser Cli toUsername])).
  { unfold sendMessageBody, bind at 1, fetchPublicKey, bind at 1, emit, orThrow at 1.
    rewrite Hdir. unfold ret at 1. unfold bind at 1, orThrow at 1. rewrite Henc.
    unfold ret at 1. unfold bind at 1, orThrow at 1. rewrite Hsig. reflexivity. }
  unfold sendMessage. destruct (post_ok E Cli request) eqn:Hpost.
  - apply action_normal. rewrite Hbody. unfold post, bind, emit. rewrite Hpost.
    unfold ret. by rewrite add_events_app.
  - erewrite action_throw.
    2: { rewrite Hbody. unfold post, bind, emit. rewrite Hpost. reflexivity. }
    by rewrite !add_events_app.
Qed.

(** A personal inbox with one record whose envelope branch ends normally. *)
Lemma getMessages_one_record (E : Environment) (name key : string) (msg : Msg)
    (message : string) (w w' : World) :
  key <> "" ->
  entry w name = None ->
  inbox E (hashUsername P name) = Some [msg] ->
  Js.nonempty (m_message msg) = Some message ->
  directBranch P E key msg message (add_events w [EvGetMessages (hashUsername P name)])
    = (Normal tt, w') ->
  getMessages P E name key w = w'.
Proof.
  intros Hkey Hentry Hinbox Hmsg Hrun. unfold getMessages. apply action_normal.
  rewrite getMessagesBody_direct by assumption.
  unfold bind at 1, fetchMessages, bind at 1, emit, orThrow. rewrite Hinbox. unfold ret at 1.
  cbn [for_of]. unfold bind, processMessage. rewrite Hmsg, Hrun. reflexivity.
Qed.

End DirectMessages.



(** ** index.ts: what the envelope branch does with a record it can open *)

(** X12. A record of a personal inbox that opens and parses is not shown
    unless its signature recovers the address of the sender it names: with
    no signature the record has no effect at all; when the directory does
    not know the named sender the run ends with an error; when the
    recovered address differs from the address of the sender's directory
    key, and the payload is not a leave notice, the only effect is the
    directory request. *)
Theorem unauthenticated_record_is_not_shown (P : Primitives) (E : Environment)
    (key : string) (msg : Msg) (message json : string) (parsed : Payload) (w : World) :
  decryptWithPrivateKey P key message = Some json ->
  json_parse P json = Some parsed ->
  (Js.nonempty (m_signature msg) = None ->
     directBranch P E key msg message w = (Normal tt, w)) /\
  (forall signature recovered senderId,
     Js.nonempty (m_signature msg) = Some signature ->
     verifyMessage P message signature = Some recovered ->
     Js.nonempty (p_senderId parsed) = Some senderId ->
     directory E Cli senderId = None ->
     directBranch P E key msg message w
       = (Throw "fetch failed", add_events w [EvGetUser Cli senderId])) /\
  (forall signature recovered senderId sPubKey expected,
     Js.nonempty (m_signature msg) = Some signature ->
     verifyMessage P message signature = Some recovered ->
     Js.nonempty (p_senderId parsed) = Some senderId ->
     directory E Cli senderId = Some sPubKey ->
     toAddress P sPubKey = Some expected ->
     Js.toLowerCase recovered <> Js.toLowerCase expected ->
     p_type parsed <> Some "GROUP_LEAVE" ->
     directBranch P E key msg message w
       = (Normal tt, add_events w [EvGetUser Cli senderId])).
Proof.
  intros Hdec Hparse. split; [| split].
  - intros Hnone. unfold directBranch, bind, orThrow. rewrite Hdec. cbn [ret].
    rewrite Hparse. cbn [ret]. by rewrite Hnone.
  - intros signature recovered senderId Hsig Hver Hsender Hdir.
    unfold directBranch, bind at 1, orThrow at 1. rewrite Hdec. unfold ret at 1.
    unfold bind at 1, orThrow at 1. rewrite Hparse. unfold ret at 1. cbv zeta.
    rewrite Hsig. unfold bind at 1, orThrow at 1. rewrite Hver. unfold ret at 1.
    rewrite Hsender.
    unfold bind at 1, fetchPublicKey, bind at 1, emit, orThrow at 1. by rewrite Hdir.
  - intros signature recovered senderId sPubKey expected Hsig Hver Hsender Hdir Haddr Hne Htype.
    rewrite (directBranch_checked P E key msg message json parsed signature recovered senderId
               sPubKey expected) by assumption.
    cbv zeta. rewrite bool_decide_eq_false_2 by exact Hne.
    by rewrite bool_decide_eq_false_2 by exact Htype.
Qed.

Lemma unauthenticated_record_witness :
  directBranch Scenario.P Scenario.online "key/alice"
    (Scenario.envelopeFor "alice" Scenario.hello "mallory")
    "sealed/pub/key/alice/text=hello;senderId=bob;createdAt=07;" Toy.fresh
  = (Normal tt, add_events Toy.fresh [EvGetUser Cli "bob"]).
Proof.
  destruct (unauthenticated_record_is_not_shown Scenario.P Scenario.online "key/alice"
              (Scenario.envelopeFor "alice" Scenario.hello "mallory")
              "sealed/pub/key/alice/text=hello;senderId=bob;createdAt=07;"
              "text=hello;senderId=bob;createdAt=07;" Scenario.hello Toy.fresh
              ltac:(by vm_compute) ltac:(by vm_compute)) as (_ & _ & H).
  apply (H "addr/pub/key/mallory" "addr/pub/key/mallory" "bob" "pub/key/bob" "addr/pub/key/bob");
    try reflexivity; by vm_compute.
Defined.



(** ** index.ts: a setup envelope for a group name that is already in use *)

(** X14. The file keeps one entry per group name. When a setup payload
    arrives for a name under which the reader holds a group of their own,
    the entry keeps the reader's chain key and signing key but takes the
    announced creator and inbox id; the reader's next [group-send] to that
    name is then posted to the announced inbox, with the announced creator
    as [senderId], sealed under the message key of the reader's own chain
    key. *)
Theorem setup_for_a_used_name_redirects_group_send (P : Primitives) (E E' : Environment)
    (data : Payload) (group : Group) (myChainKey mySigningKey message : string) (w : World) :
  let groupName := Js.key (p_groupId data) in
  entry w groupName = Some group ->
  g_myChainKey group = Some myChainKey ->
  g_mySigningKey group = Some mySigningKey ->
  disk_writable E = true ->
  let w1 := snd (groupSetup E data w) in
  exists group1,
    entry w1 groupName = Some group1 /\
    g_creator group1 = p_creator data /\
    g_groupInboxId group1 = p_groupInboxId data /\
    g_myChainKey group1 = Some myChainKey /\
    g_mySigningKey group1 = Some mySigningKey /\
    forall signature,
      let blob :=
        sendBlob P E' group1 myChainKey message (map (entropy E') (seq (drawn w1) 16)) in
      sign_keccak256 P mySigningKey blob = Some signature ->
      posts (since w1 (groupSend P E' groupName message w1))
        = [ {| r_recipientHash := p_groupInboxId data;
               r_message := blob;
               r_signature := signature;
               r_senderId := p_creator data |} ].
Proof.
  intros groupName Hentry Hck Hsk Hdisk w1.
  pose proof (groupSetup_entry E data w Hdisk) as Hentry1.
  fold groupName w1 in Hentry1. rewrite Hentry in Hentry1. cbn [mbind option_bind] in Hentry1.
  rewrite Hck, Hsk in Hentry1.
  eexists. split; [exact Hentry1 |].
  split; [reflexivity |]. split; [reflexivity |]. split; [reflexivity |].
  split; [reflexivity |].
  intros signature blob Hsig.
  by rewrite (groupSend_posts P E' groupName message _ myChainKey mySigningKey signature w1
                Hentry1 eq_refl eq_refl Hsig).
Qed.

Lemma setup_for_a_used_name_witness :
  r_senderId <$> posts (since (snd (groupSetup Scenario.online (rest_of Scenario.daveSetup)
                                      Scenario.alice1))
                          (groupSend Scenario.P Scenario.online "team" "hi"
                             (snd (groupSetup Scenario.online (rest_of Scenario.daveSetup)
                                     Scenario.alice1))))
    = [Some "dave"].
Proof.
  destruct (entry Scenario.alice1 "team") as [group |] eqn:Hentry;
    [| by vm_compute in Hentry].
  vm_compute in Hentry. injection Hentry as <-.
  epose proof (setup_for_a_used_name_redirects_group_send Scenario.P Scenario.online
                 Scenario.online (rest_of Scenario.daveSetup) _ _ _ "hi" Scenario.alice1
                 ltac:(by vm_compute) eq_refl eq_refl eq_refl)
    as (group1 & _ & _ & _ & _ & _ & Hposts).
  cbv zeta in Hposts.
  change (Js.key (p_groupId (rest_of Scenario.daveSetup))) with "team" in Hposts.
  erewrite Hposts; [reflexivity | by vm_compute].
Defined.
